(** * Affiliate: the link-rewrite engine of [src/Affiliate.js]

    A shallow embedding of the [Affiliate] class: configuration
    normalisation in the constructor, [traverse], the private transform
    pipeline [#modifyURL], the [MutationObserver] callback and
    [attach]/[detach].

    The engine's collaborators are modelled at the interface the engine
    uses: JavaScript strings and object literals, the [url-parse] and
    [querystringify] packages, the [docile] element store, the [Log]
    module and the part of the DOM that [traverse] reads and writes. *)

From Stdlib Require Import Ascii.
From stdpp Require Import gmap strings list.

Local Open Scope string_scope.
Set Warnings "-register-all".

(** ** JavaScript strings *)

Module JsString.

(** JavaScript truthiness of a string: only the empty string is falsy. *)
Definition truthy (s : string) : bool :=
  match s with
  | EmptyString => false
  | String _ _ => true
  end.

Definition lower_ascii (c : ascii) : ascii :=
  let n := Ascii.nat_of_ascii c in
  if (65 <=? n)%nat && (n <=? 90)%nat then Ascii.ascii_of_nat (n + 32) else c.

(** [String.prototype.toLowerCase] on the ASCII range. *)
Fixpoint toLowerCase (s : string) : string :=
  match s with
  | EmptyString => EmptyString
  | String c s' => String (lower_ascii c) (toLowerCase s')
  end.

(** [s.indexOf(pat)]: [None] stands for [-1]. *)
Definition indexOf (pat s : string) : option nat := String.index 0 pat s.

(** [s.slice(0, i)] and [s.slice(i)]. *)
Definition slice_to (i : nat) (s : string) : string := String.substring 0 i s.
Definition slice_from (i : nat) (s : string) : string :=
  String.substring i (String.length s - i) s.

(** [GetSubstitution] for a string pattern (no captures): in the
    replacement text [$$] is a dollar sign, [$&] the matched text,
    [$`] the text before the match and [$'] the text after it; any
    other dollar sign stands for itself. *)
Fixpoint getSubstitution (matched before after : string) (tpl : string) : string :=
  match tpl with
  | EmptyString => EmptyString
  | String "$" (String "$" rest) =>
      String "$" (getSubstitution matched before after rest)
  | String "$" (String "&" rest) =>
      matched +:+ getSubstitution matched before after rest
  | String "$" (String "`" rest) =>
      before +:+ getSubstitution matched before after rest
  | String "$" (String "'" rest) =>
      after +:+ getSubstitution matched before after rest
  | String c rest => String c (getSubstitution matched before after rest)
  end.

(** [s.replace(pat, tpl)] for a string [pat]: the first occurrence of
    [pat] is substituted, the rest of [s] is copied. *)
Definition replace (s pat tpl : string) : string :=
  match indexOf pat s with
  | None => s
  | Some i =>
      let before := slice_to i s in
      let after := slice_from (i + String.length pat) s in
      before +:+ getSubstitution pat before after tpl +:+ after
  end.

(** A replacement text without a dollar sign is inserted as it is. *)
Fixpoint dollar_free (tpl : string) : bool :=
  match tpl with
  | EmptyString => true
  | String c rest => negb (Ascii.eqb c "$") && dollar_free rest
  end.

End JsString.

(** ** JavaScript objects with string keys and string values

    Property order is the order of [for ... in] and of object spread:
    array-index keys in ascending numeric order first, then the other keys
    in insertion order. *)

Module JsObject.

Definition t := list (string * string).

Definition is_digit (c : ascii) : bool :=
  let n := Ascii.nat_of_ascii c in (48 <=? n)%nat && (n <=? 57)%nat.

Fixpoint digits_value (acc : N) (s : string) : option N :=
  match s with
  | EmptyString => Some acc
  | String c s' =>
      if is_digit c
      then digits_value (acc * 10 + (N.of_nat (Ascii.nat_of_ascii c) - 48))%N s'
      else None
  end.

(** A key is an array index when it is the canonical decimal form of an
    integer between 0 and 2^32 - 2. *)
Definition array_index (k : string) : option N :=
  match k with
  | EmptyString => None
  | String "0" EmptyString => Some 0%N
  | String "0" _ => None
  | _ =>
      match digits_value 0 k with
      | Some n => if (n <? 4294967295)%N then Some n else None
      | None => None
      end
  end.

(** [o[k]] ([None] is [undefined]). *)
Fixpoint get (k : string) (o : t) : option string :=
  match o with
  | [] => None
  | (k', v) :: o' => if String.eqb k k' then Some v else get k o'
  end.

Definition has (k : string) (o : t) : bool :=
  match get k o with Some _ => true | None => false end.

(** Assignment to a property that exists keeps its place. *)
Fixpoint update (k v : string) (o : t) : t :=
  match o with
  | [] => []
  | (k', v') :: o' =>
      if String.eqb k k' then (k, v) :: o' else (k', v') :: update k v o'
  end.

(** A new array-index key goes among the array-index keys, by value. *)
Fixpoint insert_index (n : N) (k v : string) (o : t) : t :=
  match o with
  | [] => [(k, v)]
  | (k', v') :: o' =>
      match array_index k' with
      | Some n' =>
          if (n' <? n)%N then (k', v') :: insert_index n k v o'
          else (k, v) :: o
      | None => (k, v) :: o
      end
  end.

(** [o[k] = v]. *)
Definition set (k v : string) (o : t) : t :=
  if has k o then update k v o
  else
    match array_index k with
    | Some n => insert_index n k v o
    | None => (o ++ [(k, v)])%list
    end.

Definition assign (target source : t) : t :=
  fold_left (fun acc kv => set (fst kv) (snd kv) acc) source target.

(** [{...a, ...b}]. *)
Definition spread (a b : t) : t := assign (assign [] a) b.

End JsObject.

(** ** querystringify *)

Module QueryString.

(** The parser's regular expression takes a key, a longest run of
    characters other than the four below, then an optional equals sign,
    then a value, a longest run of characters other than the ampersand. *)
Definition key_delimiter (c : ascii) : bool :=
  Ascii.eqb c "=" || Ascii.eqb c "?" || Ascii.eqb c "#" || Ascii.eqb c "&".

Inductive scan :=
| Seeking
| InKey (key : string)
| InValue (key value : string).

Definition snoc (s : string) (c : ascii) : string := s +:+ String c EmptyString.

(** [if (... || key in result) continue; result[key] = value]: the first
    value of a key is kept. The names that every object inherits are not
    counted among the keys of [result]. *)
Definition emit (key value : string) (result : JsObject.t) : JsObject.t :=
  if JsObject.has key result then result else JsObject.set key value result.

Fixpoint parse_from (st : scan) (result : JsObject.t) (query : string) : JsObject.t :=
  match query with
  | EmptyString =>
      match st with
      | Seeking => result
      | InKey k => emit k "" result
      | InValue k v => emit k v result
      end
  | String c rest =>
      match st with
      | Seeking =>
          if key_delimiter c then parse_from Seeking result rest
          else parse_from (InKey (String c EmptyString)) result rest
      | InKey k =>
          if Ascii.eqb c "=" then parse_from (InValue k "") result rest
          else if Ascii.eqb c "&" then parse_from Seeking (emit k "" result) rest
          else if key_delimiter c then parse_from (InValue k (String c EmptyString)) result rest
          else parse_from (InKey (snoc k c)) result rest
      | InValue k v =>
          if Ascii.eqb c "&" then parse_from Seeking (emit k v result) rest
          else parse_from (InValue k (snoc v c)) result rest
      end
  end.

(** [qs.parse(query)], for keys and values that percent-decoding leaves
    as they are. *)
Definition parse (query : string) : JsObject.t := parse_from Seeking [] query.

Fixpoint join (pairs : list string) : string :=
  match pairs with
  | [] => ""
  | [p] => p
  | p :: ps => p +:+ "&" +:+ join ps
  end.

(** [qs.stringify(obj)], for keys and values that percent-encoding
    leaves as they are. *)
Definition stringify (obj : JsObject.t) : string :=
  join (map (fun kv => fst kv +:+ "=" +:+ snd kv) obj).

End QueryString.

(** ** url-parse *)

(** The object that [parseURL(address, true)] returns: [query] is an
    object because the second argument asks for the query string to be
    parsed. The derived fields [auth] and [origin], which the engine never
    reads, are left out. *)
Record Url := mkUrl {
  protocol : string;
  slashes : bool;
  username : string;
  password : string;
  host : string;
  hostname : string;
  port : string;
  pathname : string;
  query : JsObject.t;
  hash : string;
  href : string
}.

(** The two entry points of the package that the engine reaches:
    [parseURL(address, true)] and the [toString] method that [set] calls
    to recompute [href]. *)
Class UrlParse := {
  parseURL : string -> Url;
  Url_toString : Url -> string
}.

(** [url.set('query', value)] with an object [value]: the field is
    stored, [host] and [hostname] are lower-cased again and [href] is
    recomputed. The object is changed in place, so the result stands for
    the new state of the object that every holder of [url] sees. *)
Definition Url_set_query `{UrlParse} (url : Url) (value : JsObject.t) : Url :=
  let url' :=
    {| protocol := protocol url; slashes := slashes url;
       username := username url; password := password url;
       host := JsString.toLowerCase (host url);
       hostname := JsString.toLowerCase (hostname url);
       port := port url; pathname := pathname url;
       query := value; hash := hash url; href := href url |} in
  {| protocol := protocol url'; slashes := slashes url';
     username := username url'; password := password url';
     host := host url'; hostname := hostname url';
     port := port url'; pathname := pathname url';
     query := query url'; hash := hash url'; href := Url_toString url' |}.

(** ** Completions, configuration and the world the engine runs in *)

(** A thrown JavaScript value. *)
Definition JsError := string.

Inductive Completion (A : Type) : Type :=
| Normal (a : A)
| Throw (e : JsError).
Arguments Normal {A} a.
Arguments Throw {A} e.

(** What a tag's [modify] hands back: an object with an [href], a plain
    string, or [undefined] or [null] (a function without a [return]).
    [modify] is a function of the URL it is given: it returns or throws,
    and leaves the object it was given as it is. *)
Inductive ModifyReturn :=
| RetUrl (u : Url)
| RetString (s : string)
| RetNullish.

Record Replacement := mkReplacement { from : string; to : string }.

(** A tag as the user writes it; [None] is an absent key. *)
Inductive RawHosts :=
| HostString (h : string)
| HostArray (hs : list string).

Record RawTag := mkRawTag {
  raw_hosts : option RawHosts;
  raw_query : option JsObject.t;
  raw_replace : option (list Replacement);
  raw_modify : option (Url -> Completion ModifyReturn)
}.

Record RawConfig := mkRawConfig {
  raw_tags : option (list RawTag);
  raw_log : bool
}.

(** A tag after the constructor has extended it. *)
Record Tag := mkTag {
  tag_hosts : list string;
  tag_query : JsObject.t;
  tag_replace : list Replacement;
  tag_modify : option (Url -> Completion ModifyReturn)
}.

Record Config := mkConfig {
  tags : list Tag;
  log : bool
}.

(** The DOM as [traverse] sees it: elements have an identity, a
    [nodeName] and child nodes; text nodes have no
    [getElementsByTagName]. *)
Inductive Node :=
| Element (id : nat) (nodeName : string) (childNodes : list Node)
| TextNode (id : nat).

Definition node_id (n : Node) : nat :=
  match n with
  | Element id _ _ => id
  | TextNode id => id
  end.

Inductive LogData :=
| LString (s : string)
| LConfig (c : Config)
| LMutation (target : nat)
| LThrown (e : JsError).

Record LogEntry := mkLogEntry { isError : bool; data : list LogData }.

(** The provenance record that the engine keeps per link. *)
Record LinkData := mkLinkData { was : string; is_ : string }.

(** Everything outside the engine that it reads or writes: the [href]
    attribute of each element, the docile store, the console, and the
    document and window properties the lifecycle looks at. *)
Record World := mkWorld {
  attributes : gmap nat string;
  docile : gmap nat LinkData;
  console : list LogEntry;
  document_body : Node;
  readyState : string;
  canObserve : bool;
  contentLoaded_listeners : nat
}.

Definition with_attributes (w : World) (a : gmap nat string) : World :=
  {| attributes := a; docile := docile w; console := console w;
     document_body := document_body w; readyState := readyState w;
     canObserve := canObserve w;
     contentLoaded_listeners := contentLoaded_listeners w |}.

Definition with_docile (w : World) (d : gmap nat LinkData) : World :=
  {| attributes := attributes w; docile := d; console := console w;
     document_body := document_body w; readyState := readyState w;
     canObserve := canObserve w;
     contentLoaded_listeners := contentLoaded_listeners w |}.

Definition with_console (w : World) (c : list LogEntry) : World :=
  {| attributes := attributes w; docile := docile w; console := c;
     document_body := document_body w; readyState := readyState w;
     canObserve := canObserve w;
     contentLoaded_listeners := contentLoaded_listeners w |}.

Definition with_listeners (w : World) (n : nat) : World :=
  {| attributes := attributes w; docile := docile w; console := console w;
     document_body := document_body w; readyState := readyState w;
     canObserve := canObserve w;
     contentLoaded_listeners := n |}.

(** A statement: it runs in a world, leaves a world, and either
    completes with a value or throws. *)
Definition Eff (A : Type) : Type := World -> Completion A * World.

Definition ret {A} (a : A) : Eff A := fun w => (Normal a, w).

Definition bind {A B} (c : Eff A) (k : A -> Eff B) : Eff B :=
  fun w =>
    match c w with
    | (Normal a, w') => k a w'
    | (Throw e, w') => (Throw e, w')
    end.

Definition throw {A} (e : JsError) : Eff A := fun w => (Throw e, w).

(** [try { body } catch (e) { handler }]. *)
Definition try_catch {A} (body : Eff A) (handler : JsError -> Eff A) : Eff A :=
  fun w =>
    match body w with
    | (Normal a, w') => (Normal a, w')
    | (Throw e, w') => handler e w'
    end.

(** A call of a pure user function. *)
Definition call {A} (r : Completion A) : Eff A := fun w => (r, w).

Notation "'let!' x ':=' c 'in' k" := (bind c (fun x => k))
  (at level 10, x name, c at level 100, k at level 200).
Notation "'do!' c 'in' k" := (bind c (fun _ => k))
  (at level 10, c at level 100, k at level 200).

(** [node.getAttribute('href')]: [None] is [null]. *)
Definition getAttribute_href (node : nat) : Eff (option string) :=
  fun w => (Normal (attributes w !! node), w).

(** [node.setAttribute('href', value)]. *)
Definition setAttribute_href (node : nat) (value : string) : Eff unit :=
  fun w => (Normal tt, with_attributes w (<[node := value]> (attributes w))).

(** Modelled from the spec: the docile package, a store of one record per
    element, keyed by the element's identity; [get] of an element never
    stored is absent. *)
Definition Docile_get (node : nat) : Eff (option LinkData) :=
  fun w => (Normal (docile w !! node), w).

Definition Docile_set (node : nat) (record : LinkData) : Eff unit :=
  fun w => (Normal tt, with_docile w (<[node := record]> (docile w))).

(** Modelled from the spec: the [Log] module of the repository, a function
    of [(isError, ...data)] that writes one entry to the console. *)
Definition Log (isError : bool) (data : list LogData) : Eff unit :=
  fun w => (Normal tt, with_console w (console w ++ [mkLogEntry isError data])%list).

(** ** The engine *)

(** [array.indexOf(x) !== -1] on an array of strings. *)
Definition includes (x : string) (array : list string) : bool :=
  existsb (String.eqb x) array.

(** The private [#state] together with [this.log] and the observer:
    [log] of the stored configuration decides whether [this.log] is [Log]
    or the empty function, [observing] tells whether the observer is
    connected. *)
Record Affiliate := mkAffiliate {
  attached : bool;
  config : Config;
  hosts : list string;
  observing : bool
}.

Inductive MutationType := attributes_type | childList_type | characterData_type.

(** A [MutationRecord]; [attributeName] is [None] (null) unless the type
    is attributes. *)
Record MutationRecord := mkMutationRecord {
  type : MutationType;
  attributeName : option string;
  target : Node
}.

(** [this.log = config.log ? Log : () => {}]. *)
Definition this_log (this : Affiliate) (isError : bool) (data : list LogData) : Eff unit :=
  if log (config this) then Log isError data else ret tt.

(** One round of the constructor's loop over [config.tags]: a single host
    becomes an array, absent keys get their defaults. *)
Definition extend_tag (t : RawTag) : Tag :=
  {| tag_hosts :=
       match raw_hosts t with
       | Some (HostString h) => [h]
       | Some (HostArray hs) => hs
       | None => []
       end;
     tag_query := default [] (raw_query t);
     tag_replace := default [] (raw_replace t);
     tag_modify := raw_modify t |}.

(** [new Affiliate(config)]. *)
Definition constructor (raw : RawConfig) : Eff Affiliate :=
  let tags := map extend_tag (default [] (raw_tags raw)) in
  let hosts := fold_left (fun acc t => (acc ++ tag_hosts t)%list) tags [] in
  let config := {| tags := tags; log := raw_log raw |} in
  let this :=
    {| attached := false; config := config; hosts := hosts; observing := false |} in
  do! this_log this false [LString "New Instance"; LConfig config] in
  ret this.

(** [getElementsByTagName('a')]: the anchors below an element, in
    document order; [nodeName] is compared without regard to case, as
    [traverse] itself does for its argument. *)
Definition is_anchor (nodeName : string) : bool :=
  String.eqb (JsString.toLowerCase nodeName) "a".

Fixpoint anchors_in (n : Node) : list nat :=
  match n with
  | Element id nodeName childNodes =>
      (if is_anchor nodeName then [id] else []) ++ flat_map anchors_in childNodes
  | TextNode _ => []
  end%list.

Definition getElementsByTagName_a (childNodes : list Node) : list nat :=
  flat_map anchors_in childNodes.

Section Engine.

Context `{UrlParse}.

(** [linkData.is && linkData.is === url.href], with
    [linkData = Docile.get(node) || {}]. *)
Definition already_modified (linkData : option LinkData) (url : Url) : bool :=
  match linkData with
  | Some d => JsString.truthy (is_ d) && String.eqb (is_ d) (href url)
  | None => false
  end.

(** [parseURL(returnedURL.href || returnedURL, true)]: reading [href]
    of [undefined] or [null] throws a [TypeError]. *)
Definition reparse (returnedURL : ModifyReturn) : Completion Url :=
  match returnedURL with
  | RetUrl u =>
      Normal (if JsString.truthy (href u) then parseURL (href u)
              else parseURL (Url_toString u))
  | RetString s => Normal (parseURL s)
  | RetNullish => Throw "TypeError"
  end.

(** The loop over [tag.replace]. *)
Definition apply_replace (rules : list Replacement) (url : string) : string :=
  fold_left (fun url r => JsString.replace url (from r) (to r)) rules url.

(** [#modifyURL(url, node, tag)]. The [url] object is shared with the
    caller: the result is its state after the call, which only
    [url.set] changes; the later assignments to the parameter rebind
    the local name. *)
Definition modifyURL (this : Affiliate) (url : Url) (node : nat) (tag : Tag) : Eff Url :=
  let! linkData := Docile_get node in
  if already_modified linkData url then ret url
  else
    let originalURL := href url in
    do! this_log this false [LString ("Discovered URL: " +:+ href url)] in
    let shared := Url_set_query url (JsObject.spread (query url) (tag_query tag)) in
    let! url :=
      match tag_modify tag with
      | Some modify =>
          try_catch
            (let! returnedURL := call (modify shared) in call (reparse returnedURL))
            (fun e => do! Log true [LThrown e] in ret shared)
      | None => ret shared
      end in
    let url := apply_replace (tag_replace tag) (href url) in
    do! setAttribute_href node url in
    do! Docile_set node {| was := originalURL; is_ := url |} in
    ret shared.

(** The loop over [config.tags] for one link. *)
Fixpoint for_tags (this : Affiliate) (url : Url) (node : nat) (tags : list Tag) : Eff Url :=
  match tags with
  | [] => ret url
  | tag :: rest =>
      if includes (host url) (tag_hosts tag)
      then let! url := modifyURL this url node tag in for_tags this url node rest
      else for_tags this url node rest
  end.

(** The body of the loop over [nodes]. *)
Definition visit (this : Affiliate) (node : nat) : Eff unit :=
  let! attr := getAttribute_href node in
  match attr with
  | None => ret tt
  | Some value =>
      if negb (JsString.truthy value) then ret tt
      else
        let url := parseURL value in
        if negb (includes (host url) (hosts this)) then ret tt
        else do! for_tags this url node (tags (config this)) in ret tt
  end.

Fixpoint for_nodes (this : Affiliate) (nodes : list nat) : Eff unit :=
  match nodes with
  | [] => ret tt
  | node :: rest => do! visit this node in for_nodes this rest
  end.

(** [traverse(nodeSet)]; [None] is a call without an argument. *)
Definition traverse (this : Affiliate) (nodeSet : option Node) : Eff unit :=
  let! nodeSet :=
    match nodeSet with
    | Some n => ret n
    | None => fun w => (Normal (document_body w), w)
    end in
  match nodeSet with
  | TextNode _ => ret tt
  | Element id nodeName childNodes =>
      do! this_log this false [LString "Traversing DOM..."] in
      let nodes := getElementsByTagName_a childNodes in
      let nodes := if is_anchor nodeName then [id] else nodes in
      for_nodes this nodes
  end.

(** The two [continue]s of the observer callback: an attribute record
    for another attribute, and an [href] record whose element carries
    the value the engine stored as [is]. *)
Definition skipped (m : MutationRecord) : Eff bool :=
  match type m with
  | attributes_type =>
      if negb (bool_decide (attributeName m = Some "href")) then ret true
      else
        let! href := getAttribute_href (node_id (target m)) in
        let! linkData := Docile_get (node_id (target m)) in
        match linkData, href with
        | Some d, Some h => ret (JsString.truthy (is_ d) && String.eqb (is_ d) h)
        | _, _ => ret false
        end
  | _ => ret false
  end.

(** The callback given to [new window.MutationObserver]. *)
Fixpoint observer_loop (this : Affiliate) (emitted : bool) (mutations : list MutationRecord) : Eff unit :=
  match mutations with
  | [] => ret tt
  | m :: rest =>
      let! skip := skipped m in
      if skip then observer_loop this emitted rest
      else
        do! (if emitted then ret tt
             else this_log this false [LString "DOM Mutation"; LMutation (node_id (target m))]) in
        do! traverse this (Some (target m)) in
        observer_loop this true rest
  end.

Definition observer_callback (this : Affiliate) (mutations : list MutationRecord) : Eff unit :=
  observer_loop this false mutations.

Definition set_attached (this : Affiliate) (b : bool) : Affiliate :=
  {| attached := b; config := config this; hosts := hosts this; observing := observing this |}.

Definition set_observing (this : Affiliate) (b : bool) : Affiliate :=
  {| attached := attached this; config := config this; hosts := hosts this; observing := b |}.

Definition document_ready (readyState : string) : bool :=
  String.eqb readyState "complete" || String.eqb readyState "interactive"
  || String.eqb readyState "loaded".

(** [attach()]; the result is the engine with its new [#state]. While the
    document is loading, the call of [addEventListener] is counted in
    [contentLoaded_listeners]. *)
Definition attach (this : Affiliate) : Eff Affiliate :=
  if attached this then ret this
  else
    fun w =>
      if document_ready (readyState w) then
        let this := set_attached this true in
        (do! traverse this None in
         if canObserve w then ret (set_observing this true)
         else do! this_log this false [LString "Browser does not support MutationObserver."] in
              ret this) w
      else (Normal this, with_listeners w (S (contentLoaded_listeners w))).

(** [detach()]. *)
Definition detach (this : Affiliate) : Eff Affiliate :=
  fun w =>
    if negb (canObserve w) then (Normal this, w)
    else
      (let this := set_observing (set_attached this false) false in
       do! this_log this false [LString "Observer disconnected."] in
       ret this) w.

(** The stages of [#modifyURL] on a link it does rewrite: the shared
    object after [url.set], the local [url] after the [modify] step, and
    the string that is written back. *)
Definition merged (url : Url) (tag : Tag) : Url :=
  Url_set_query url (JsObject.spread (query url) (tag_query tag)).

Definition after_modify (tag : Tag) (shared : Url) : Url :=
  match tag_modify tag with
  | Some modify =>
      match modify shared with
      | Normal returnedURL =>
          match reparse returnedURL with
          | Normal url => url
          | Throw _ => shared
          end
      | Throw _ => shared
      end
  | None => shared
  end.

Definition rewritten (url : Url) (tag : Tag) : string :=
  apply_replace (tag_replace tag) (href (after_modify tag (merged url tag))).

End Engine.

(** ** Vocabulary of the statements *)

(** [c] completes normally in every world, and the world it leaves is
    related by [R] to the world it ran in. *)
Definition completes {A} (R : relation World) (c : Eff A) : Prop :=
  forall w, exists a w', c w = (Normal a, w') /\ R w w'.

(** The [href] attribute and the provenance record of one element are
    the same in both worlds. *)
Definition same_link (node : nat) : relation World :=
  fun w w' =>
    attributes w' !! node = attributes w !! node /\ docile w' !! node = docile w !! node.

(** No condition on the two worlds. *)
Definition any_world : relation World := fun _ _ => True.

(** [R] admits what the engine does for the element [node]: writing its
    [href], storing its record and writing to the console. *)
Class Admits (R : relation World) (node : nat) : Prop := {
  admits_console : forall w c, R w (with_console w c);
  admits_attribute : forall w v, R w (with_attributes w (<[node := v]> (attributes w)));
  admits_record : forall w d, R w (with_docile w (<[node := d]> (docile w)))
}.

(** The host filter of [traverse] passes a link by: nothing happens when the
    link has no [href], or one whose host is not in the engine's host
    list. *)
Definition filtered_out `{UrlParse} (this : Affiliate) (node : nat) (w : World) : Prop :=
  forall value, attributes w !! node = Some value ->
                includes (host (parseURL value)) (hosts this) = false.

(** [c] keeps [P]: the world it leaves has [P] when the world it ran in
    has, whether it completes or throws. *)
Definition preserves {A} (P : World -> Prop) (c : Eff A) : Prop :=
  forall w, P w -> P (snd (c w)).

(** Every link that has a provenance record has the [href] stored as
    [is]. *)
Definition consistent (w : World) : Prop :=
  forall node d, docile w !! node = Some d -> attributes w !! node = Some (is_ d).

(** No [href] attribute and no provenance record is lost between the two
    worlds. *)
Definition nothing_removed : relation World :=
  fun w w' =>
    forall node,
      (is_Some (attributes w !! node) -> is_Some (attributes w' !! node))
      /\ (is_Some (docile w !! node) -> is_Some (docile w' !! node)).

(** The [modify] of the tag, if it has one, returns an object with an
    [href] or a string on every URL: it does not throw, and it does not
    return [undefined] or [null]. *)
Definition returns_url_or_string (tag : Tag) : Prop :=
  forall modify u,
    tag_modify tag = Some modify -> exists r, modify u = Normal r /\ r <> RetNullish.

(** The links that [traverse] goes through from a given node. *)
Definition scanned (nodeSet : Node) : list nat :=
  match nodeSet with
  | Element id nodeName childNodes =>
      if is_anchor nodeName then [id] else getElementsByTagName_a childNodes
  | TextNode _ => []
  end.

(** The parser gives hosts in lower case, as url-parse does. *)
Definition lowercases_host `{UrlParse} : Prop :=
  forall address, JsString.toLowerCase (host (parseURL address)) = host (parseURL address).

(** ** A reference instance of url-parse *)

Module UrlParseModel.

Definition is_alpha (c : ascii) : bool :=
  let n := Ascii.nat_of_ascii (JsString.lower_ascii c) in (97 <=? n)%nat && (n <=? 122)%nat.

Definition is_scheme_char (c : ascii) : bool :=
  is_alpha c || JsObject.is_digit c
  || Ascii.eqb c "." || Ascii.eqb c "+" || Ascii.eqb c "-".

(** The text up to and including the first colon, when it is a letter
    followed by scheme characters, and the text after it. *)
Fixpoint scheme_rest (s : string) : option (string * string) :=
  match s with
  | EmptyString => None
  | String c rest =>
      if Ascii.eqb c ":" then Some (String c EmptyString, rest)
      else if is_scheme_char c then
        match scheme_rest rest with
        | Some (p, r) => Some (String c p, r)
        | None => None
        end
      else None
  end.

Definition extract_scheme (s : string) : string * string :=
  match s with
  | String c _ =>
      if is_alpha c then
        match scheme_rest s with
        | Some (p, r) => (JsString.toLowerCase p, r)
        | None => ("", s)
        end
      else ("", s)
  | EmptyString => ("", s)
  end.

Definition extract_slashes (s : string) : bool * string :=
  match s with
  | String "/" (String "/" rest) => (true, rest)
  | _ => (false, s)
  end.

(** The instruction [[c, key]]: from the first [c] on, the text goes to
    the field; what is before it stays the address. *)
Definition cut_at (c : string) (address : string) : string * string :=
  match JsString.indexOf c address with
  | Some i => (JsString.slice_from i address, JsString.slice_to i address)
  | None => ("", address)
  end.

Definition isSpecial (protocol : string) : bool :=
  includes protocol ["file:"; "ftp:"; "http:"; "https:"; "ws:"; "wss:"].

Fixpoint last_is_colon (s : string) : bool :=
  match s with
  | EmptyString => false
  | String c EmptyString => Ascii.eqb c ":"
  | String _ rest => last_is_colon rest
  end.

Definition toString (url : Url) : string :=
  let scheme :=
    if JsString.truthy (protocol url) && negb (last_is_colon (protocol url))
    then protocol url +:+ ":" else protocol url in
  let result :=
    scheme +:+
    (if (JsString.truthy (protocol url) && slashes url)
        || isSpecial (protocol url) then "//" else "") in
  let result :=
    if JsString.truthy (username url) then
      result +:+ username url +:+
      (if JsString.truthy (password url) then ":" +:+ password url else "") +:+ "@"
    else if JsString.truthy (password url) then result +:+ ":" +:+ password url +:+ "@"
    else result in
  let result := result +:+ host url +:+ pathname url in
  let query := QueryString.stringify (query url) in
  let result :=
    if JsString.truthy query then result +:+ "?" +:+ query else result in
  if JsString.truthy (hash url) then result +:+ hash url else result.

(** Modelled from the spec: the url-parse package, for an address of the
    shape [scheme://host/path?query#fragment] without user information,
    port, backslashes or leading white space, and with no base location;
    the scheme and the host are lower-cased, the query string is parsed
    into an object, a special scheme gets a path that starts with a
    slash, and [href] is the object serialised again. *)
Definition parse (address : string) : Url :=
  let '(protocol, rest) := extract_scheme address in
  let '(slashes, rest) := extract_slashes rest in
  let '(hash, rest) := cut_at "#" rest in
  let '(query, rest) := cut_at "?" rest in
  let '(pathname, rest) := if slashes then cut_at "/" rest else (rest, "") in
  let host := JsString.toLowerCase rest in
  let pathname :=
    match pathname with
    | String "/" _ => pathname
    | _ => if isSpecial protocol then "/" +:+ pathname else pathname
    end in
  let url :=
    {| protocol := protocol; slashes := slashes; username := ""; password := "";
       host := host; hostname := host; port := ""; pathname := pathname;
       query := QueryString.parse query; hash := hash; href := "" |} in
  {| protocol := protocol; slashes := slashes; username := ""; password := "";
     host := host; hostname := host; port := ""; pathname := pathname;
     query := QueryString.parse query; hash := hash; href := toString url |}.

#[export] Instance reference : UrlParse :=
  {| parseURL := parse; Url_toString := toString |}.

End UrlParseModel.

(** ** Pages and configurations of the scenarios *)

Module Scenario.

(** A loaded page with the given body and [href] attributes, on which
    no engine has run yet. *)
Definition page (body : Node) (hrefs : list (nat * string)) : World :=
  {| attributes := list_to_map hrefs; docile := ∅; console := [];
     document_body := body; readyState := "complete"; canObserve := true;
     contentLoaded_listeners := 0 |}.

(** [<body><a href=...></a></body>]: the link is element 1. *)
Definition link : Node := Element 1 "A" [].
Definition body : Node := Element 0 "BODY" [link].
Definition one_link (href : string) : World := page body [(1, href)].

(** The world a statement leaves. *)
Definition exec {A} (c : Eff A) (w : World) : World := snd (c w).

(** [new Affiliate(raw)] followed by [traverse(root)]. *)
Definition construct_and_traverse `{UrlParse} (raw : RawConfig) (root : Node) : Eff unit :=
  let! this := constructor raw in traverse this (Some root).

Definition raw_tag (h : string) (q : JsObject.t) (r : list Replacement) : RawTag :=
  {| raw_hosts := Some (HostString h); raw_query := Some q;
     raw_replace := Some r; raw_modify := None |}.

Definition quiet (ts : list RawTag) : RawConfig :=
  {| raw_tags := Some ts; raw_log := false |}.

End Scenario.

(** * Properties *)

(** ** Strings *)

Section StringFacts.

Lemma append_cons (c : ascii) (a b : string) : String c a +:+ b = String c (a +:+ b).
Proof. reflexivity. Qed.

Lemma append_empty_l (s : string) : "" +:+ s = s.
Proof. reflexivity. Qed.

Lemma append_empty_r (s : string) : s +:+ "" = s.
Proof.
  induction s as [|c s IH]; [reflexivity |].
  by rewrite append_cons, IH.
Qed.

Lemma append_assoc (a b c : string) : (a +:+ b) +:+ c = a +:+ (b +:+ c).
Proof.
  induction a as [|x a IH]; [reflexivity |].
  by rewrite !append_cons, IH.
Qed.

Lemma length_append (a b : string) :
  String.length (a +:+ b) = String.length a + String.length b.
Proof.
  induction a as [|x a IH]; [reflexivity |].
  rewrite append_cons. simpl. by rewrite IH.
Qed.

Lemma substring_zero_length (s : string) : String.substring 0 (String.length s) s = s.
Proof. induction s as [|c s IH]; simpl; [reflexivity | by rewrite IH]. Qed.

Lemma substring_prefix (a b : string) :
  String.substring 0 (String.length a) (a +:+ b) = a.
Proof.
  induction a as [|x a IH].
  - rewrite append_empty_l. by destruct b.
  - rewrite append_cons. simpl. by rewrite IH.
Qed.

Lemma substring_skip (a b : string) (n : nat) :
  String.substring (String.length a) n (a +:+ b) = String.substring 0 n b.
Proof.
  induction a as [|x a IH]; [reflexivity |].
  rewrite append_cons. simpl. exact IH.
Qed.

Lemma slice_to_prefix (a b : string) : JsString.slice_to (String.length a) (a +:+ b) = a.
Proof. apply substring_prefix. Qed.

Lemma slice_from_suffix (a b : string) :
  JsString.slice_from (String.length a) (a +:+ b) = b.
Proof.
  unfold JsString.slice_from.
  rewrite substring_skip, length_append.
  replace (String.length a + String.length b - String.length a) with (String.length b) by lia.
  apply substring_zero_length.
Qed.

(** The occurrence of [pat] at the end of [p] in [p +:+ pat +:+ q]. *)
Lemma occurrence_at (p pat q : string) :
  String.substring (String.length p) (String.length pat) (p +:+ pat +:+ q) = pat.
Proof. rewrite substring_skip. apply substring_prefix. Qed.

(** [indexOf] finds the first occurrence. *)
Lemma indexOf_first (p pat q : string) :
  (forall i, i < String.length p ->
             String.substring i (String.length pat) (p +:+ pat +:+ q) <> pat) ->
  JsString.indexOf pat (p +:+ pat +:+ q) = Some (String.length p).
Proof.
  intros Hbefore. unfold JsString.indexOf.
  destruct (String.index 0 pat (p +:+ pat +:+ q)) as [m|] eqn:Hidx.
  - destruct (lt_eq_lt_dec m (String.length p)) as [[Hlt | ->] | Hgt].
    + exfalso. apply (Hbefore m Hlt). by apply (String.index_correct1 0).
    + reflexivity.
    + exfalso.
      apply (String.index_correct2 _ _ _ _ Hidx (String.length p)); [lia | done |].
      apply occurrence_at.
  - exfalso. destruct pat as [|c pat].
    + apply String.index_correct4 in Hidx. lia.
    + apply (String.index_correct3 0 (String.length p) _ _ Hidx); [done | lia |].
      apply occurrence_at.
Qed.

Lemma getSubstitution_dollar_free (matched before after tpl : string) :
  JsString.dollar_free tpl = true ->
  JsString.getSubstitution matched before after tpl = tpl.
Proof.
  induction tpl as [|c tpl IH]; simpl; [done |].
  intros [Hc Hrest]%andb_prop.
  rewrite (IH Hrest).
  destruct (Ascii.eqb_spec c "$") as [-> | Hne]; [discriminate |].
  destruct c as [[] [] [] [] [] [] [] []]; try reflexivity.
  by destruct Hne.
Qed.

Lemma replace_at (p pat q tpl : string) :
  JsString.indexOf pat (p +:+ pat +:+ q) = Some (String.length p) ->
  JsString.replace (p +:+ pat +:+ q) pat tpl
  = p +:+ JsString.getSubstitution pat p q tpl +:+ q.
Proof.
  intros Hidx. unfold JsString.replace. rewrite Hidx. cbv zeta.
  rewrite slice_to_prefix.
  assert (JsString.slice_from (String.length p + String.length pat) (p +:+ pat +:+ q) = q)
    as ->; [| reflexivity].
  rewrite <- length_append, <- (append_assoc p pat q).
  apply slice_from_suffix.
Qed.

Lemma replace_absent (s pat tpl : string) :
  JsString.indexOf pat s = None -> JsString.replace s pat tpl = s.
Proof. intros Hidx. unfold JsString.replace. by rewrite Hidx. Qed.

End StringFacts.

(** ** Objects *)

Section ObjectFacts.

Implicit Types (o : JsObject.t) (k v : string).

Lemma get_None_not_key k o : JsObject.get k o = None <-> ~ In k (map fst o).
Proof.
  induction o as [|[k' v'] o IH]; simpl.
  - tauto.
  - destruct (String.eqb_spec k k') as [-> | Hne].
    + split; [discriminate | intros Hn; destruct Hn; by left].
    + rewrite IH. split; [intros Hn [Heq | Hin]; congruence | tauto].
Qed.

Lemma get_update k v o k' :
  JsObject.has k o = true ->
  JsObject.get k' (JsObject.update k v o)
  = if String.eqb k' k then Some v else JsObject.get k' o.
Proof.
  unfold JsObject.has.
  induction o as [|[k1 v1] o IH]; simpl; [discriminate |].
  destruct (String.eqb_spec k k1) as [-> | Hne]; simpl.
  - intros _. by destruct (String.eqb_spec k' k1).
  - intros Hhas. rewrite (IH Hhas).
    destruct (String.eqb_spec k' k1) as [-> | Hne']; [| reflexivity].
    destruct (String.eqb_spec k1 k); congruence.
Qed.

Lemma get_insert_index n k v o k' :
  JsObject.get k o = None ->
  JsObject.get k' (JsObject.insert_index n k v o)
  = if String.eqb k' k then Some v else JsObject.get k' o.
Proof.
  induction o as [|[k1 v1] o IH]; simpl; [reflexivity |].
  destruct (String.eqb_spec k k1) as [-> | Hk]; [discriminate |].
  intros Hnew.
  destruct (JsObject.array_index k1) as [n1|]; [| reflexivity].
  destruct (n1 <? n)%N; [| reflexivity].
  simpl. rewrite (IH Hnew).
  destruct (String.eqb_spec k' k1) as [-> | Hne]; [| reflexivity].
  by destruct (String.eqb_spec k1 k) as [-> | Hne].
Qed.

Lemma get_app_new k v o k' :
  JsObject.get k' (o ++ [(k, v)])%list
  = match JsObject.get k' o with
    | Some x => Some x
    | None => if String.eqb k' k then Some v else None
    end.
Proof.
  induction o as [|[k1 v1] o IH]; simpl; [reflexivity |].
  by destruct (String.eqb k' k1).
Qed.

(** Reading a property after an assignment. *)
Lemma get_set k v o k' :
  JsObject.get k' (JsObject.set k v o)
  = if String.eqb k' k then Some v else JsObject.get k' o.
Proof.
  unfold JsObject.set.
  destruct (JsObject.has k o) eqn:Hhas; [by apply get_update |].
  destruct (JsObject.array_index k) as [n|].
  - apply get_insert_index. unfold JsObject.has in Hhas.
    by destruct (JsObject.get k o).
  - rewrite get_app_new.
    destruct (String.eqb_spec k' k) as [-> | Hne]; [| by destruct (JsObject.get k' o)].
    unfold JsObject.has in Hhas. by destruct (JsObject.get k o).
Qed.

Lemma get_assign o source k :
  NoDup (map fst source) ->
  JsObject.get k (JsObject.assign o source)
  = match JsObject.get k source with
    | Some v => Some v
    | None => JsObject.get k o
    end.
Proof.
  unfold JsObject.assign.
  revert o. induction source as [|[k1 v1] source IH]; intros o Hnd; simpl; [reflexivity |].
  apply NoDup_cons in Hnd as [Hnotin Hnd].
  rewrite (IH _ Hnd), get_set.
  destruct (String.eqb_spec k k1) as [-> | Hne]; [| reflexivity].
  assert (JsObject.get k1 source = None) as ->; [| reflexivity].
  apply get_None_not_key. by rewrite <- list_elem_of_In.
Qed.

(** [{...a, ...b}]: the value of [b] wins, the other keys of [a] stay. *)
Lemma get_spread a b k :
  NoDup (map fst a) -> NoDup (map fst b) ->
  JsObject.get k (JsObject.spread a b)
  = match JsObject.get k b with
    | Some v => Some v
    | None => JsObject.get k a
    end.
Proof.
  intros Ha Hb. unfold JsObject.spread.
  rewrite (get_assign _ _ _ Hb), (get_assign _ _ _ Ha).
  simpl. by destruct (JsObject.get k a).
Qed.

End ObjectFacts.

(** ** The transform pipeline *)

Section PipelineFacts.

Context `{UrlParse}.

Lemma modifyURL_skip this url node tag w :
  already_modified (docile w !! node) url = true ->
  modifyURL this url node tag w = (Normal url, w).
Proof.
  intros Hguard. unfold modifyURL, bind, Docile_get. by rewrite Hguard.
Qed.

(** On a link that is not marked as already modified the pipeline runs to
    its end: the shared object carries the merged query, the link gets the
    rewritten string, and the record is replaced. *)
Lemma modifyURL_run this url node tag w :
  already_modified (docile w !! node) url = false ->
  exists w',
    modifyURL this url node tag w = (Normal (merged url tag), w')
    /\ attributes w' = <[node := rewritten url tag]> (attributes w)
    /\ docile w' = <[node := {| was := href url; is_ := rewritten url tag |}]> (docile w).
Proof.
  intros Hguard.
  unfold modifyURL, rewritten, after_modify, bind, Docile_get.
  rewrite Hguard. fold (merged url tag).
  unfold this_log, try_catch, call, bind, ret, Log, setAttribute_href, Docile_set.
  destruct (log (config this)), (tag_modify tag) as [modify|];
    try (destruct (modify (merged url tag)) as [returnedURL | e];
         [destruct (reparse returnedURL) as [returned | e] |]);
    simpl; eexists; (split; [reflexivity | split; reflexivity]).
Qed.

Lemma already_modified_spec (d : LinkData) (url : Url) :
  is_ d <> "" -> is_ d = href url -> already_modified (Some d) url = true.
Proof.
  intros Hne Heq. simpl. rewrite <- Heq, String.eqb_refl.
  by destruct (is_ d).
Qed.

End PipelineFacts.

(** ** Completion and framing *)

Section Completes.

Context `{UrlParse} (R : relation World) `{!PreOrder R}.

Lemma completes_ret {A} (a : A) : completes R (ret a).
Proof. intros w. by exists a, w. Qed.

Lemma completes_bind {A B} (c : Eff A) (k : A -> Eff B) :
  completes R c -> (forall a, completes R (k a)) -> completes R (bind c k).
Proof.
  intros Hc Hk w. unfold bind.
  destruct (Hc w) as (a & w1 & -> & HR1).
  destruct (Hk a w1) as (b & w2 & -> & HR2).
  exists b, w2. split; [reflexivity | by transitivity w1].
Qed.

Lemma completes_read {A} (f : World -> A) : completes R (fun w => (Normal (f w), w)).
Proof. intros w. by exists (f w), w. Qed.

Section ForOneElement.

Context (node : nat) `{!Admits R node}.

Lemma completes_Log isError data : completes R (Log isError data).
Proof. intros w. eexists _, _. split; [reflexivity | apply admits_console]. Qed.

Lemma completes_this_log this isError data : completes R (this_log this isError data).
Proof.
  unfold this_log. destruct (log (config this)); [apply completes_Log | apply completes_ret].
Qed.

Lemma completes_setAttribute value : completes R (setAttribute_href node value).
Proof. intros w. eexists _, _. split; [reflexivity | apply admits_attribute]. Qed.

Lemma completes_Docile_set record : completes R (Docile_set node record).
Proof. intros w. eexists _, _. split; [reflexivity | apply admits_record]. Qed.

(** The [try]/[catch] around the call of [modify] leaves no way out for
    what [modify] throws. *)
Lemma completes_modify_step (modify : Url -> Completion ModifyReturn) shared :
  completes R
    (try_catch
       (let! returnedURL := call (modify shared) in call (reparse returnedURL))
       (fun e => do! Log true [LThrown e] in ret shared)).
Proof.
  intros w. unfold try_catch, bind, call.
  destruct (modify shared) as [returnedURL | e];
    [destruct (reparse returnedURL) as [returned | e] |].
  - by eexists _, w.
  - destruct (completes_Log true [LThrown e] w) as ([] & w1 & -> & HR).
    by eexists _, w1.
  - destruct (completes_Log true [LThrown e] w) as ([] & w1 & -> & HR).
    by eexists _, w1.
Qed.

Lemma completes_modifyURL this url tag : completes R (modifyURL this url node tag).
Proof.
  unfold modifyURL.
  apply completes_bind; [apply (completes_read (fun w => docile w !! node)) |].
  intros linkData.
  destruct (already_modified linkData url); [apply completes_ret |].
  apply completes_bind; [apply completes_this_log |]. intros _.
  apply completes_bind.
  { destruct (tag_modify tag); [apply completes_modify_step | apply completes_ret]. }
  intros local.
  apply completes_bind; [apply completes_setAttribute |]. intros _.
  apply completes_bind; [apply completes_Docile_set |]. intros _.
  apply completes_ret.
Qed.

Lemma completes_for_tags this tags url : completes R (for_tags this url node tags).
Proof.
  revert url. induction tags as [|tag rest IH]; intros url; simpl.
  - apply completes_ret.
  - destruct (includes (host url) (tag_hosts tag)); [| apply IH].
    apply completes_bind; [apply completes_modifyURL | apply IH].
Qed.

Lemma completes_visit this : completes R (visit this node).
Proof.
  unfold visit.
  apply completes_bind; [apply (completes_read (fun w => attributes w !! node)) |].
  intros [value|]; [| apply completes_ret].
  destruct (negb (JsString.truthy value)); [apply completes_ret |].
  destruct (negb _); [apply completes_ret |].
  apply completes_bind; [apply completes_for_tags | intros _; apply completes_ret].
Qed.

End ForOneElement.

End Completes.

#[local] Instance any_world_preorder : PreOrder any_world.
Proof. by split. Qed.

#[local] Instance any_world_admits node : Admits any_world node.
Proof. by split. Qed.

#[local] Instance same_link_preorder node : PreOrder (same_link node).
Proof.
  split.
  - by intros w.
  - intros w1 w2 w3 [Ha Hd] [Ha' Hd']. split; congruence.
Qed.

(** What the engine does for one element leaves every other element's
    attribute and record alone. *)
Lemma same_link_admits node other :
  other <> node -> Admits (same_link node) other.
Proof.
  intros Hne. split; intros w x; split; simpl; try reflexivity.
  - by apply lookup_insert_ne.
  - by apply lookup_insert_ne.
Qed.

Section TraverseFacts.

Context `{UrlParse}.

Lemma for_nodes_completes this nodes : completes any_world (for_nodes this nodes).
Proof.
  induction nodes as [|node rest IH]; simpl.
  - apply completes_ret; apply _.
  - apply completes_bind; [apply _ | | intros _; exact IH].
    apply (completes_visit any_world node).
Qed.

Lemma traverse_completes this nodeSet : completes any_world (traverse this nodeSet).
Proof.
  unfold traverse.
  apply completes_bind; [apply _ | |].
  - destruct nodeSet as [n|]; [apply completes_ret; apply _ |].
    apply (completes_read any_world document_body).
  - intros [id nodeName childNodes | id]; [| apply completes_ret; apply _].
    apply completes_bind; [apply _ | | intros _; apply for_nodes_completes].
    apply (completes_this_log any_world 0).
Qed.

Lemma visit_filtered_out this node w :
  filtered_out this node w -> visit this node w = (Normal tt, w).
Proof.
  intros Hout. unfold visit, bind, getAttribute_href.
  destruct (attributes w !! node) as [value|] eqn:Hattr; [| reflexivity].
  destruct (negb (JsString.truthy value)); [reflexivity |].
  by rewrite (Hout value Hattr).
Qed.

Lemma filtered_out_same_link this node w w' :
  same_link node w w' -> filtered_out this node w -> filtered_out this node w'.
Proof. intros [Ha _] Hout value. rewrite Ha. apply Hout. Qed.

Lemma for_nodes_frame this node nodes w :
  filtered_out this node w ->
  exists w', for_nodes this nodes w = (Normal tt, w') /\ same_link node w w'.
Proof.
  revert w. induction nodes as [|m rest IH]; intros w Hout; simpl.
  - exists w. by split.
  - unfold bind.
    destruct (decide (m = node)) as [-> | Hne].
    + rewrite (visit_filtered_out _ _ _ Hout). by apply IH.
    + pose proof (same_link_admits node m Hne) as Hadmits.
      destruct (completes_visit (same_link node) m this w) as ([] & w1 & -> & Hsame).
      destruct (IH w1) as (w2 & -> & Hsame'); [by eapply filtered_out_same_link |].
      exists w2. split; [reflexivity | by transitivity w1].
Qed.

Lemma traverse_frame this node nodeSet w :
  filtered_out this node w ->
  exists w', traverse this nodeSet w = (Normal tt, w') /\ same_link node w w'.
Proof.
  intros Hout. unfold traverse, bind.
  assert (exists n, (match nodeSet with
                     | Some n => ret n
                     | None => fun w => (Normal (document_body w), w)
                     end) w = (Normal n, w)) as [n ->].
  { destruct nodeSet as [n|]; by eexists. }
  destruct n as [id nodeName childNodes | id]; [| exists w; by split].
  pose proof (same_link_admits node (S node) (Nat.neq_succ_diag_l node)) as Hadmits.
  destruct (completes_this_log (same_link node) (S node) this false
              [LString "Traversing DOM..."] w) as ([] & w1 & -> & Hsame).
  destruct (for_nodes_frame this node
              (if is_anchor nodeName then [id] else getElementsByTagName_a childNodes) w1)
    as (w2 & -> & Hsame'); [by eapply filtered_out_same_link |].
  exists w2. split; [reflexivity | by transitivity w1].
Qed.

Lemma constructor_hosts raw w this w' :
  constructor raw w = (Normal this, w') ->
  hosts this = concat (map tag_hosts (tags (config this))).
Proof.
  unfold constructor, bind, this_log, ret, Log. simpl.
  intros Hnew.
  assert (forall ts acc,
            fold_left (fun acc t => (acc ++ tag_hosts t)%list) ts acc
            = (acc ++ concat (map tag_hosts ts))%list) as Hfold.
  { induction ts as [|t ts IH]; intros acc; simpl.
    - by rewrite app_nil_r.
    - by rewrite IH, app_assoc. }
  destruct (raw_log raw); injection Hnew as <- _; simpl; apply (Hfold _ []).
Qed.

End TraverseFacts.

(** * The claims *)

(** The scenarios of the claims run on the reference instance. *)
#[local] Existing Instance UrlParseModel.reference.

(** ** Replacement rules *)

(** C10. An entry of [replace] substitutes the first occurrence of [from]
    only. When [p] is the text before the first occurrence of [pat] and
    [q] the text after it, the loop over a single rule turns
    [p +:+ pat +:+ q] into [p], the replacement text and [q]: whatever [q]
    holds, further occurrences of [pat] included, is copied, and a
    replacement text without a dollar sign is inserted as it is. The
    pipeline of a tag with that one rule and no [modify] writes that
    string to the link. A rule whose [from] does not occur leaves the
    string as it is. *)
Theorem replace_substitutes_first_occurrence_only `{UrlParse} (p pat q tpl : string) :
  (forall i, i < String.length p ->
             String.substring i (String.length pat) (p +:+ pat +:+ q) <> pat) ->
  let replaced := p +:+ JsString.getSubstitution pat p q tpl +:+ q in
  JsString.replace (p +:+ pat +:+ q) pat tpl = replaced
  /\ apply_replace [mkReplacement pat tpl] (p +:+ pat +:+ q) = replaced
  /\ (JsString.dollar_free tpl = true ->
      apply_replace [mkReplacement pat tpl] (p +:+ pat +:+ q) = p +:+ tpl +:+ q)
  /\ (forall this url node tag w,
        tag_replace tag = [mkReplacement pat tpl] ->
        tag_modify tag = None ->
        href (merged url tag) = p +:+ pat +:+ q ->
        already_modified (docile w !! node) url = false ->
        attributes (snd (modifyURL this url node tag w)) !! node = Some replaced
        /\ is_ <$> docile (snd (modifyURL this url node tag w)) !! node = Some replaced)
  /\ (forall s, JsString.indexOf pat s = None -> apply_replace [mkReplacement pat tpl] s = s).
Proof.
  intros Hfirst replaced.
  pose proof (replace_at p pat q tpl (indexOf_first p pat q Hfirst)) as Hreplace.
  fold replaced in Hreplace.
  assert (apply_replace [mkReplacement pat tpl] (p +:+ pat +:+ q) = replaced) as Hloop.
  { unfold apply_replace. simpl. exact Hreplace. }
  split; [exact Hreplace |]. split; [exact Hloop |]. split; [| split].
  - intros Hfree. rewrite Hloop. unfold replaced.
    by rewrite getSubstitution_dollar_free.
  - intros this url node tag w Hrules Hmodify Hhref Hguard.
    destruct (modifyURL_run this url node tag w Hguard) as (w' & -> & Hattr & Hdocile).
    assert (rewritten url tag = replaced) as Hrewritten.
    { unfold rewritten, after_modify. by rewrite Hmodify, Hrules, Hhref. }
    simpl. rewrite Hattr, Hdocile, !lookup_insert_eq, Hrewritten. by split.
  - intros s Habsent. unfold apply_replace. simpl. by apply replace_absent.
Qed.

(** The rule [{from: "/a", to: "/b"}] on the link
    [http://shop.example/a/a]: the first [/a] becomes [/b], the second
    stays, in the loop, in the pipeline and in a traversal of the page. *)
Lemma replace_substitutes_first_occurrence_only_witness :
  let rule := mkReplacement "/a" "/b" in
  let tag := mkTag ["shop.example"] [] [rule] None in
  let this := mkAffiliate false (mkConfig [tag] false) ["shop.example"] false in
  let w := Scenario.one_link "http://shop.example/a/a" in
  apply_replace [rule] "http://shop.example/a/a" = "http://shop.example/b/a"
  /\ attributes
       (snd (modifyURL (H := UrlParseModel.reference) this
               (UrlParseModel.parse "http://shop.example/a/a") 1 tag w)) !! 1
     = Some "http://shop.example/b/a"
  /\ attributes (Scenario.exec (traverse (H := UrlParseModel.reference) this None) w) !! 1
     = Some "http://shop.example/b/a".
Proof.
  intros rule tag this w.
  destruct (replace_substitutes_first_occurrence_only (H := UrlParseModel.reference)
              "http://shop.example" "/a" "/a" "/b")
    as (_ & Hloop & _ & Hpipeline & _).
  - intros i Hi. simpl in Hi.
    do 19 (destruct i as [|i]; [intros Heq; vm_compute in Heq; discriminate |]). lia.
  - split; [exact Hloop |]. split; [| reflexivity].
    apply (Hpipeline this (UrlParseModel.parse "http://shop.example/a/a") 1 tag w);
      reflexivity.
Defined.

(** C8. The entries of [replace] are applied one after the other, each to
    the string the one before it produced: the loop over the rules is the
    first rule followed by the loop over the others. On [http://old/path]
    the rules [http:] to [https:] and [https://old] to [https://new] give
    [https://new/path], though the second rule's [from] does not occur in
    the original string; the pipeline writes that string to the link. *)
Theorem replace_rules_apply_in_sequence :
  (forall r rest s,
     apply_replace (r :: rest) s = apply_replace rest (JsString.replace s (from r) (to r)))
  /\ JsString.indexOf "https://old" "http://old/path" = None
  /\ apply_replace [mkReplacement "http:" "https:"; mkReplacement "https://old" "https://new"]
                   "http://old/path" = "https://new/path"
  /\ attributes
       (Scenario.exec
          (Scenario.construct_and_traverse (H := UrlParseModel.reference)
             (Scenario.quiet
                [Scenario.raw_tag "old" []
                   [mkReplacement "http:" "https:"; mkReplacement "https://old" "https://new"]])
             Scenario.body)
          (Scenario.one_link "http://old/path")) !! 1
     = Some "https://new/path".
Proof.
  split; [reflexivity |]. by vm_compute.
Qed.

(** ** Query merge *)

(** C6. The pipeline hands [{...url.query, ...tag.query}] to [url.set]:
    for objects with distinct keys, a key of the tag has the tag's value
    in the merged query, and a key that only the link has keeps the link's
    value. A link with the query [a=1] and a tag with [{a: 2, b: 3}] give
    the query [a=2&b=3], and the pipeline writes
    [http://shop.example/x?a=2&b=3] to the link. *)
Theorem query_merge_tag_wins `{UrlParse} (this : Affiliate) (url : Url) (node : nat)
    (tag : Tag) (w : World) (k : string) :
  NoDup (map fst (query url)) ->
  NoDup (map fst (tag_query tag)) ->
  already_modified (docile w !! node) url = false ->
  (fst (modifyURL this url node tag w) = Normal (merged url tag)
   /\ query (merged url tag) = JsObject.spread (query url) (tag_query tag)
   /\ JsObject.get k (query (merged url tag))
      = match JsObject.get k (tag_query tag) with
        | Some v => Some v
        | None => JsObject.get k (query url)
        end)
  /\ QueryString.stringify
       (JsObject.spread (QueryString.parse "?a=1") [("a", "2"); ("b", "3")]) = "a=2&b=3"
  /\ attributes
       (Scenario.exec
          (Scenario.construct_and_traverse (H := UrlParseModel.reference)
             (Scenario.quiet [Scenario.raw_tag "shop.example" [("a", "2"); ("b", "3")] []])
             Scenario.body)
          (Scenario.one_link "http://shop.example/x?a=1")) !! 1
     = Some "http://shop.example/x?a=2&b=3".
Proof.
  intros Hurl Htag Hguard.
  split; [| by vm_compute].
  destruct (modifyURL_run this url node tag w Hguard) as (w' & -> & _).
  split; [reflexivity | split; [reflexivity |]].
  by apply get_spread.
Qed.

(** The link [http://shop.example/x?a=1] and the tag [{a: 2, b: 3}]: the
    tag's [a] replaces the link's. *)
Lemma query_merge_tag_wins_witness :
  let url := UrlParseModel.parse "http://shop.example/x?a=1" in
  let tag := mkTag ["shop.example"] [("a", "2"); ("b", "3")] [] None in
  JsObject.get "a" (query url) = Some "1"
  /\ JsObject.get "a" (query (merged (H := UrlParseModel.reference) url tag)) = Some "2"
  /\ href (merged (H := UrlParseModel.reference) url tag) = "http://shop.example/x?a=2&b=3".
Proof.
  intros url tag.
  pose proof (query_merge_tag_wins (H := UrlParseModel.reference)
                (mkAffiliate false (mkConfig [tag] false) ["shop.example"] false)
                url 1 tag (Scenario.one_link "http://shop.example/x?a=1") "a") as Hmerge.
  destruct Hmerge as [(_ & _ & Hget) _].
  - vm_compute. apply NoDup_cons. split; [by intros ?%elem_of_nil | apply NoDup_nil_2].
  - vm_compute. apply NoDup_cons. split.
    + intros Hin%list_elem_of_singleton. discriminate.
    + apply NoDup_cons. split; [by intros ?%elem_of_nil | apply NoDup_nil_2].
  - reflexivity.
  - split; [reflexivity | split; [exact Hget | reflexivity]].
Defined.

(** ** Failure of the custom transform *)

(** C4. When a tag's [modify] throws on every URL, the pipeline on a link
    it processes completes normally; the string it writes to the link
    and stores as [is] is the URL with the tag's query merged, as it stood
    before the [modify] step, with the tag's [replace] rules applied; and
    [traverse] completes normally in every world, so nothing that
    [modify] throws reaches its caller. *)
Theorem modify_failure_contained `{UrlParse} (this : Affiliate) (url : Url) (node : nat)
    (tag : Tag) (modify : Url -> Completion ModifyReturn) (w : World) :
  tag_modify tag = Some modify ->
  (forall u, exists e, modify u = Throw e) ->
  already_modified (docile w !! node) url = false ->
  (exists w',
     modifyURL this url node tag w = (Normal (merged url tag), w')
     /\ attributes w' !! node
        = Some (apply_replace (tag_replace tag) (href (merged url tag)))
     /\ docile w' !! node
        = Some {| was := href url;
                  is_ := apply_replace (tag_replace tag) (href (merged url tag)) |})
  /\ (forall nodeSet w0, exists w1, traverse this nodeSet w0 = (Normal tt, w1)).
Proof.
  intros Hmodify Hthrows Hguard. split.
  - destruct (modifyURL_run this url node tag w Hguard) as (w' & Hrun & Hattr & Hdocile).
    exists w'. split; [exact Hrun |].
    assert (rewritten url tag = apply_replace (tag_replace tag) (href (merged url tag)))
      as Hrewritten.
    { unfold rewritten, after_modify. rewrite Hmodify.
      by destruct (Hthrows (merged url tag)) as [e ->]. }
    rewrite Hattr, Hdocile, !lookup_insert_eq, Hrewritten. by split.
  - intros nodeSet w0.
    destruct (traverse_completes this nodeSet w0) as ([] & w1 & Htraverse & _).
    by exists w1.
Qed.

(** A tag with the query [{ref: "A"}], the rule [http:] to [https:] and a
    [modify] that throws, on the link [http://shop.example/x]. *)
Lemma modify_failure_contained_witness :
  let modify := fun _ : Url => @Throw ModifyReturn "boom" in
  let tag := mkTag ["shop.example"] [("ref", "A")] [mkReplacement "http:" "https:"] (Some modify) in
  let this := mkAffiliate false (mkConfig [tag] false) ["shop.example"] false in
  (exists w',
     modifyURL (H := UrlParseModel.reference) this
       (UrlParseModel.parse "http://shop.example/x") 1 tag
       (Scenario.one_link "http://shop.example/x")
     = (Normal (merged (H := UrlParseModel.reference)
                  (UrlParseModel.parse "http://shop.example/x") tag), w')
     /\ attributes w' !! 1 = Some "https://shop.example/x?ref=A")
  /\ (exists w1,
        traverse (H := UrlParseModel.reference) this None
          (Scenario.one_link "http://shop.example/x") = (Normal tt, w1)).
Proof.
  intros modify tag this.
  destruct (modify_failure_contained (H := UrlParseModel.reference) this
              (UrlParseModel.parse "http://shop.example/x") 1 tag modify
              (Scenario.one_link "http://shop.example/x"))
    as [(w' & Hrun & Hattr & _) Htraverse].
  - reflexivity.
  - intros u. by exists "boom".
  - reflexivity.
  - split; [| apply Htraverse].
    exists w'. split; [exact Hrun | exact Hattr].
Defined.

(** ** Host filtering *)

(** C5. The host list of a constructed engine is the hosts of its tags,
    one tag after the other. A link whose [href] parses to a host outside
    that list has the same [href] attribute and the same provenance
    record after [traverse] as before, whatever element the traversal
    starts from and whatever the tags hold. *)
Theorem host_filtering `{UrlParse} (raw : RawConfig) (w0 w1 : World) (this : Affiliate)
    (nodeSet : option Node) (node : nat) (value : string) (w : World) :
  constructor raw w0 = (Normal this, w1) ->
  attributes w !! node = Some value ->
  includes (host (parseURL value)) (hosts this) = false ->
  hosts this = concat (map tag_hosts (tags (config this)))
  /\ exists w',
       traverse this nodeSet w = (Normal tt, w')
       /\ attributes w' !! node = attributes w !! node
       /\ docile w' !! node = docile w !! node.
Proof.
  intros Hnew Hattr Hhost. split; [by eapply constructor_hosts |].
  destruct (traverse_frame this node nodeSet w) as (w' & Htraverse & Hsame_attr & Hsame_rec).
  - intros value' Hattr'. congruence.
  - by exists w'.
Qed.

(** A page with a link to [shop.example] and a link to [other.example],
    and a tag for [shop.example]: the second link is left alone. *)
Lemma host_filtering_witness :
  let raw := Scenario.quiet [Scenario.raw_tag "shop.example" [("ref", "A")] []] in
  let body := Element 0 "BODY" [Element 1 "A" []; Element 2 "A" []] in
  let w := Scenario.page body [(1, "http://shop.example/x"); (2, "http://other.example/y")] in
  exists this w',
    traverse (H := UrlParseModel.reference) this None w = (Normal tt, w')
    /\ attributes w' !! 2 = Some "http://other.example/y"
    /\ docile w' !! 2 = None
    /\ attributes w' !! 1 = Some "http://shop.example/x?ref=A".
Proof.
  intros raw body w.
  destruct (constructor raw w) as [[this|e] w1] eqn:Hnew; [| discriminate].
  destruct (host_filtering (H := UrlParseModel.reference) raw w w1 this None 2
              "http://other.example/y" w Hnew)
    as [_ (w' & Htraverse & Hattr & Hrec)].
  - reflexivity.
  - injection Hnew as <- _. reflexivity.
  - exists this, w'. split; [exact Htraverse |]. split; [exact Hattr |].
    split; [exact Hrec |].
    injection Hnew as <- _.
    vm_compute in Htraverse. injection Htraverse as <-. reflexivity.
Defined.

(** ** Provenance *)

(** C2 fails on the code. The claim wants [was] to stay the link's
    original [href] through later rewrites. With a first tag that merges
    [{ref: "A"}] and replaces [ref=A] by [ref=B], and a second tag that
    merges [{z: "1"}], one traversal rewrites the link
    [http://shop.example/x] twice: the first tag alone leaves [was] the
    original [href] and [is] [http://shop.example/x?ref=B]; the call for
    the second tag stores the [href] of the shared URL object,
    [http://shop.example/x?ref=A], as [was], a string that the link never
    had, so the record left by both is not one whose [was] is the
    original. *)
Theorem provenance_was_not_original :
  let tag1 := Scenario.raw_tag "shop.example" [("ref", "A")] [mkReplacement "ref=A" "ref=B"] in
  let tag2 := Scenario.raw_tag "shop.example" [("z", "1")] [] in
  let original := "http://shop.example/x" in
  let first_only :=
    Scenario.exec
      (Scenario.construct_and_traverse (H := UrlParseModel.reference)
         (Scenario.quiet [tag1]) Scenario.body)
      (Scenario.one_link original) in
  let both :=
    Scenario.exec
      (Scenario.construct_and_traverse (H := UrlParseModel.reference)
         (Scenario.quiet [tag1; tag2]) Scenario.body)
      (Scenario.one_link original) in
  docile first_only !! 1
  = Some {| was := original; is_ := "http://shop.example/x?ref=B" |}
  /\ docile both !! 1
     = Some {| was := "http://shop.example/x?ref=A";
               is_ := "http://shop.example/x?ref=A&z=1" |}
  /\ ~ (exists d, docile both !! 1 = Some d /\ was d = original).
Proof.
  intros tag1 tag2 original first_only both.
  split; [by vm_compute | split; [by vm_compute |]].
  intros (d & Hd & Hwas).
  vm_compute in Hd. injection Hd as <-. discriminate Hwas.
Qed.

(** ** Idempotence *)

(** C3 fails on the code. The claim wants a second application of the
    pipeline to change nothing. A tag whose rule replaces [/x] by [/x?k]
    writes [http://shop.example/x?k] to the link [http://shop.example/x]
    and stores it as [is]. The check for an already modified link compares
    [is] with the [href] of the URL parsed again from the link, which is
    [http://shop.example/x?k=], not with the attribute, which is the
    stored [is]; so the second call runs the pipeline again and writes
    [http://shop.example/x?k?k=]. Two traversals in a row do the same. *)
Theorem second_application_rewrites_again :
  let tag := mkTag ["shop.example"] [] [mkReplacement "/x" "/x?k"] None in
  let this := mkAffiliate false (mkConfig [tag] false) ["shop.example"] false in
  let w0 := Scenario.one_link "http://shop.example/x" in
  let w1 := snd (modifyURL (H := UrlParseModel.reference) this
                   (UrlParseModel.parse "http://shop.example/x") 1 tag w0) in
  let w2 := snd (modifyURL (H := UrlParseModel.reference) this
                   (UrlParseModel.parse "http://shop.example/x?k") 1 tag w1) in
  let once := Scenario.exec (traverse (H := UrlParseModel.reference) this None) w0 in
  let twice := Scenario.exec (traverse (H := UrlParseModel.reference) this None) once in
  (attributes w1 !! 1 = Some "http://shop.example/x?k"
   /\ is_ <$> docile w1 !! 1 = Some "http://shop.example/x?k"
   /\ href (UrlParseModel.parse "http://shop.example/x?k") = "http://shop.example/x?k="
   /\ attributes w2 !! 1 = Some "http://shop.example/x?k?k="
   /\ attributes w2 !! 1 <> attributes w1 !! 1)
  /\ (attributes once !! 1 = Some "http://shop.example/x?k"
      /\ attributes twice !! 1 = Some "http://shop.example/x?k?k="
      /\ attributes twice !! 1 <> attributes once !! 1).
Proof.
  intros tag this w0 w1 w2 once twice.
  split.
  - do 4 (split; [by vm_compute |]).
    intros Heq. vm_compute in Heq. discriminate Heq.
  - do 2 (split; [by vm_compute |]).
    intros Heq. vm_compute in Heq. discriminate Heq.
Qed.

(** ** The observer callback *)

(** C7, as the code has it. A record of an [href] change on an element
    whose [href] is the stored [is], when that string is not empty, is
    passed over: the callback goes on with the rest of the batch in the
    same world, and a batch of that record alone changes nothing, so no
    traversal is started and nothing is logged. *)
Theorem own_write_back_suppressed `{UrlParse} (this : Affiliate) (m : MutationRecord)
    (rest : list MutationRecord) (emitted : bool) (w : World) (d : LinkData) :
  type m = attributes_type ->
  attributeName m = Some "href" ->
  docile w !! node_id (target m) = Some d ->
  attributes w !! node_id (target m) = Some (is_ d) ->
  is_ d <> "" ->
  skipped m w = (Normal true, w)
  /\ observer_loop this emitted (m :: rest) w = observer_loop this emitted rest w
  /\ observer_callback this [m] w = (Normal tt, w).
Proof.
  intros Htype Hname Hrecord Hattr Hnonempty.
  assert (skipped m w = (Normal true, w)) as Hskip.
  { unfold skipped, bind, getAttribute_href, Docile_get.
    rewrite Htype, Hname. simpl. rewrite Hrecord, Hattr, String.eqb_refl.
    by destruct (is_ d). }
  split; [exact Hskip |].
  split; [| unfold observer_callback]; simpl; unfold bind; by rewrite Hskip.
Qed.

(** The engine's own write of [http://shop.example/x?ref=A], reported
    back by the observer, with logging on. *)
Lemma own_write_back_suppressed_witness :
  let raw := mkRawConfig (Some [Scenario.raw_tag "shop.example" [("ref", "A")] []]) true in
  let m := mkMutationRecord attributes_type (Some "href") Scenario.link in
  exists this w,
    constructor raw (Scenario.one_link "http://shop.example/x") = (Normal this, w)
    /\ attributes (Scenario.exec (traverse (H := UrlParseModel.reference) this None) w) !! 1
       = Some "http://shop.example/x?ref=A"
    /\ observer_callback (H := UrlParseModel.reference) this [m]
         (Scenario.exec (traverse (H := UrlParseModel.reference) this None) w)
       = (Normal tt, Scenario.exec (traverse (H := UrlParseModel.reference) this None) w).
Proof.
  intros raw m.
  destruct (constructor raw (Scenario.one_link "http://shop.example/x"))
    as [[this|e] w] eqn:Hnew; [| discriminate].
  exists this, w. split; [reflexivity |].
  injection Hnew as <- <-.
  split; [reflexivity |].
  apply (own_write_back_suppressed (H := UrlParseModel.reference) _ m [] false _
           {| was := "http://shop.example/x"; is_ := "http://shop.example/x?ref=A" |}).
  - reflexivity.
  - reflexivity.
  - reflexivity.
  - reflexivity.
  - discriminate.
Defined.

(** C7, as the claim states it, fails: a tag whose rule replaces the whole
    URL by the empty string leaves the link with an empty [href] and an
    empty [is]. The record of that change has a new value equal to the
    stored [is], and the callback does not pass it over: it logs the
    mutation and traverses the link again. *)
Lemma empty_write_back_not_suppressed :
  let raw :=
    mkRawConfig
      (Some [Scenario.raw_tag "shop.example" [] [mkReplacement "http://shop.example/x" ""]])
      true in
  let m := mkMutationRecord attributes_type (Some "href") Scenario.link in
  exists this w0 w,
    constructor raw (Scenario.one_link "http://shop.example/x") = (Normal this, w0)
    /\ traverse (H := UrlParseModel.reference) this None w0 = (Normal tt, w)
    /\ attributes w !! 1 = Some ""
    /\ is_ <$> docile w !! 1 = Some ""
    /\ skipped m w = (Normal false, w)
    /\ console (Scenario.exec (observer_callback (H := UrlParseModel.reference) this [m]) w)
       = (console w
          ++ [mkLogEntry false [LString "DOM Mutation"; LMutation 1];
              mkLogEntry false [LString "Traversing DOM..."]])%list.
Proof.
  intros raw m. do 3 eexists.
  split; [reflexivity |].
  split; [by vm_compute |].
  by vm_compute.
Qed.

(** ** Several tags for one host *)

(** C1, as the code has it. On the link [http://shop.example/x], with a
    first tag for [shop.example] that merges [{ref: "A"}] and a second tag
    for the same host that replaces [ref=A] by [ref=B], [traverse] leaves
    the link with [http://shop.example/x?ref=A]: the first tag's pipeline
    writes that string and stores it as [is]; the URL object that both
    calls share has that same [href] by then, so the call for the second
    tag finds the link already modified and returns at once. *)
Theorem second_tag_skipped_after_query_merge :
  let raw1 := Scenario.raw_tag "shop.example" [("ref", "A")] [] in
  let raw2 := Scenario.raw_tag "shop.example" [] [mkReplacement "ref=A" "ref=B"] in
  let w0 := Scenario.one_link "http://shop.example/x" in
  let w := Scenario.exec
             (Scenario.construct_and_traverse (Scenario.quiet [raw1; raw2]) Scenario.link) w0 in
  let url := parseURL "http://shop.example/x" in
  attributes w !! 1 = Some "http://shop.example/x?ref=A"
  /\ docile w !! 1
     = Some {| was := "http://shop.example/x"; is_ := "http://shop.example/x?ref=A" |}
  /\ (forall this,
        modifyURL this (merged url (extend_tag raw1)) 1 (extend_tag raw2) w
        = (Normal (merged url (extend_tag raw1)), w)).
Proof.
  intros raw1 raw2 w0 w url.
  split; [by vm_compute | split; [by vm_compute |]].
  intros this. apply modifyURL_skip. by vm_compute.
Qed.

(** C1, as the claim states it, fails: the final [href] of the scenario
    is not [http://shop.example/x?ref=B]. *)
Lemma multi_tag_scenario_href_is_not_ref_B :
  let raw1 := Scenario.raw_tag "shop.example" [("ref", "A")] [] in
  let raw2 := Scenario.raw_tag "shop.example" [] [mkReplacement "ref=A" "ref=B"] in
  attributes
    (Scenario.exec
       (Scenario.construct_and_traverse (Scenario.quiet [raw1; raw2]) Scenario.link)
       (Scenario.one_link "http://shop.example/x")) !! 1
  <> Some "http://shop.example/x?ref=B".
Proof.
  intros raw1 raw2 Heq. vm_compute in Heq. discriminate Heq.
Qed.

(** ** Logging *)

(** C9 fails on the code. An engine constructed without [log], with a tag
    whose [modify] throws, traverses the link [http://shop.example/x]: the
    [catch] of the pipeline calls [Log] itself, not [this.log], and the
    console gets the error. The same run with a tag without [modify]
    leaves the console empty. *)
Theorem modify_failure_logged_with_logging_off :
  let throwing :=
    mkRawTag (Some (HostString "shop.example")) (Some [("ref", "A")]) None
      (Some (fun _ => Throw "boom")) in
  let plain := Scenario.raw_tag "shop.example" [("ref", "A")] [] in
  let run raw :=
    Scenario.exec (Scenario.construct_and_traverse raw Scenario.body)
      (Scenario.one_link "http://shop.example/x") in
  raw_log (Scenario.quiet [throwing]) = false
  /\ console (run (Scenario.quiet [throwing])) = [mkLogEntry true [LThrown "boom"]]
  /\ console (run (Scenario.quiet [plain])) = [].
Proof.
  intros throwing plain run. by vm_compute.
Qed.

(** * Further properties of the engine *)

(** ** What every operation respects *)

Section Respects.

Context `{UrlParse} (R : relation World) `{!PreOrder R}.
Context (admits_all : forall node, Admits R node).
Context (admits_listener : forall w n, R w (with_listeners w n)).

Lemma for_nodes_respects this nodes : completes R (for_nodes this nodes).
Proof.
  induction nodes as [|node rest IH]; simpl.
  - by apply completes_ret.
  - apply completes_bind; [done | | intros _; exact IH].
    by apply (completes_visit R node).
Qed.

Lemma traverse_respects this nodeSet : completes R (traverse this nodeSet).
Proof.
  unfold traverse.
  apply completes_bind; [done | |].
  - destruct nodeSet as [n|]; [by apply completes_ret |].
    by apply (completes_read R document_body).
  - intros [id nodeName childNodes | id]; [| by apply completes_ret].
    apply completes_bind; [done | | intros _; apply for_nodes_respects].
    by apply (completes_this_log R 0).
Qed.

Lemma skipped_reads (m : MutationRecord) w : exists b, skipped m w = (Normal b, w).
Proof.
  unfold skipped, bind, getAttribute_href, Docile_get, ret.
  destruct (type m); try by eexists.
  destruct (negb _); [by eexists |].
  destruct (docile w !! node_id (target m)), (attributes w !! node_id (target m));
    by eexists.
Qed.

Lemma observer_loop_respects this emitted mutations :
  completes R (observer_loop this emitted mutations).
Proof.
  revert emitted. induction mutations as [|m rest IH]; intros emitted; simpl.
  - by apply completes_ret.
  - intros w. unfold bind at 1.
    destruct (skipped_reads m w) as [skip ->].
    destruct skip; [apply IH |].
    revert w. apply completes_bind; [done | |].
    + destruct emitted; [by apply completes_ret | by apply (completes_this_log R 0)].
    + intros _. apply completes_bind; [done | apply traverse_respects |].
      intros _. apply IH.
Qed.

Lemma attach_respects this : completes R (attach this).
Proof.
  unfold attach. destruct (attached this); [by apply completes_ret |].
  intros w. destruct (document_ready (readyState w)).
  - revert w. intros w.
    assert (completes R
              (do! traverse (set_attached this true) None in
               if canObserve w then ret (set_observing (set_attached this true) true)
               else do! this_log (set_attached this true) false
                          [LString "Browser does not support MutationObserver."] in
                    ret (set_attached this true))) as Hbody.
    { apply completes_bind; [done | apply traverse_respects |]. intros _.
      destruct (canObserve w); [by apply completes_ret |].
      apply completes_bind; [done | by apply (completes_this_log R 0) |].
      intros _. by apply completes_ret. }
    apply Hbody.
  - eexists _, _. split; [reflexivity | apply admits_listener].
Qed.

Lemma detach_respects this : completes R (detach this).
Proof.
  unfold detach. intros w. destruct (negb (canObserve w)).
  - by exists this, w.
  - revert w. apply completes_bind; [done | by apply (completes_this_log R 0) |].
    intros _. by apply completes_ret.
Qed.

End Respects.

(** ** What every operation keeps *)

Section Preserves.

Context `{UrlParse} (cfg : Config) (P : World -> Prop).
Context (P_log : forall this data, config this = cfg -> preserves P (this_log this false data)).
Context (P_modifyURL : forall this url node tag,
            config this = cfg -> tag ∈ tags cfg -> preserves P (modifyURL this url node tag)).
Context (P_listener : forall w n, P w -> P (with_listeners w n)).

Lemma preserves_ret {A} (a : A) : preserves P (ret a).
Proof. by intros w. Qed.

Lemma preserves_bind {A B} (c : Eff A) (k : A -> Eff B) :
  preserves P c -> (forall a, preserves P (k a)) -> preserves P (bind c k).
Proof.
  intros Hc Hk w HP. unfold bind.
  specialize (Hc w HP). destruct (c w) as [[a|e] w1]; simpl in *; [by apply Hk | done].
Qed.

Lemma preserves_read {A} (f : World -> A) : preserves P (fun w => (Normal (f w), w)).
Proof. by intros w. Qed.

Lemma for_tags_preserves this ts url node :
  config this = cfg -> (forall tag, tag ∈ ts -> tag ∈ tags cfg) ->
  preserves P (for_tags this url node ts).
Proof.
  intros Hcfg. revert url. induction ts as [|tag rest IH]; intros url Hsub; simpl.
  - apply preserves_ret.
  - assert (forall t, t ∈ rest -> t ∈ tags cfg) as Hrest.
    { intros t Ht. apply Hsub. by right. }
    destruct (includes (host url) (tag_hosts tag)); [| by apply IH].
    apply preserves_bind; [| intros url'; by apply IH].
    apply P_modifyURL; [done |]. apply Hsub. by left.
Qed.

Lemma visit_preserves this node : config this = cfg -> preserves P (visit this node).
Proof.
  intros Hcfg. unfold visit.
  apply preserves_bind; [apply (preserves_read (fun w => attributes w !! node)) |].
  intros [value|]; [| apply preserves_ret].
  destruct (negb (JsString.truthy value)); [apply preserves_ret |].
  destruct (negb _); [apply preserves_ret |].
  apply preserves_bind; [| intros _; apply preserves_ret].
  apply for_tags_preserves; [done |]. by rewrite Hcfg.
Qed.

Lemma for_nodes_preserves this nodes : config this = cfg -> preserves P (for_nodes this nodes).
Proof.
  intros Hcfg. induction nodes as [|node rest IH]; simpl.
  - apply preserves_ret.
  - apply preserves_bind; [by apply visit_preserves | intros _; exact IH].
Qed.

Lemma traverse_preserves this nodeSet : config this = cfg -> preserves P (traverse this nodeSet).
Proof.
  intros Hcfg. unfold traverse.
  apply preserves_bind.
  - destruct nodeSet as [n|]; [apply preserves_ret | apply (preserves_read document_body)].
  - intros [id nodeName childNodes | id]; [| apply preserves_ret].
    apply preserves_bind; [by apply P_log | intros _; by apply for_nodes_preserves].
Qed.

Lemma observer_loop_preserves this emitted mutations :
  config this = cfg -> preserves P (observer_loop this emitted mutations).
Proof.
  intros Hcfg. revert emitted.
  induction mutations as [|m rest IH]; intros emitted; simpl.
  - apply preserves_ret.
  - intros w HP. unfold bind at 1.
    destruct (skipped_reads m w) as [skip ->].
    destruct skip; [by apply IH |].
    revert w HP. apply preserves_bind.
    + destruct emitted; [apply preserves_ret | by apply P_log].
    + intros _. apply preserves_bind; [by apply traverse_preserves | intros _; apply IH].
Qed.

Lemma attach_preserves this : config this = cfg -> preserves P (attach this).
Proof.
  intros Hcfg. unfold attach. destruct (attached this); [apply preserves_ret |].
  intros w HP. destruct (document_ready (readyState w)); [| by apply P_listener].
  assert (preserves P
            (do! traverse (set_attached this true) None in
             if canObserve w then ret (set_observing (set_attached this true) true)
             else do! this_log (set_attached this true) false
                        [LString "Browser does not support MutationObserver."] in
                  ret (set_attached this true))) as Hbody; [| by apply Hbody].
  apply preserves_bind; [by apply traverse_preserves |]. intros _.
  destruct (canObserve w); [apply preserves_ret |].
  apply preserves_bind; [by apply P_log | intros _; apply preserves_ret].
Qed.

Lemma detach_preserves this : config this = cfg -> preserves P (detach this).
Proof.
  intros Hcfg. unfold detach. intros w HP. destruct (negb (canObserve w)); [done |].
  revert w HP. apply preserves_bind; [by apply P_log | intros _; apply preserves_ret].
Qed.

End Preserves.

(** ** Links that a traversal leaves alone *)

Section Stable.

Context `{UrlParse}.

Lemma for_tags_skip this url node ts w :
  already_modified (docile w !! node) url = true ->
  for_tags this url node ts w = (Normal url, w).
Proof.
  intros Hguard. induction ts as [|tag rest IH]; simpl; [reflexivity |].
  destruct (includes (host url) (tag_hosts tag)); [| exact IH].
  unfold bind. by rewrite (modifyURL_skip _ _ _ _ _ Hguard).
Qed.

(** A link whose visit changes nothing, in every world where it has the
    attribute and the record it has now, comes out of the loop over the
    nodes as it went in. *)
Lemma for_nodes_stable this node nodes w :
  (forall w', same_link node w w' -> visit this node w' = (Normal tt, w')) ->
  exists w', for_nodes this nodes w = (Normal tt, w') /\ same_link node w w'.
Proof.
  intros Hstable. revert w Hstable.
  induction nodes as [|m rest IH]; intros w Hstable; simpl.
  - exists w. by split.
  - unfold bind. destruct (decide (m = node)) as [-> | Hne].
    + rewrite (Hstable w); [| reflexivity]. by apply IH.
    + pose proof (same_link_admits node m Hne) as Hadmits.
      destruct (completes_visit (same_link node) m this w) as ([] & w1 & -> & Hsame).
      destruct (IH w1) as (w2 & -> & Hsame').
      { intros w' Hw'. apply Hstable. by transitivity w1. }
      exists w2. split; [reflexivity | by transitivity w1].
Qed.

Lemma traverse_stable this node nodeSet w :
  (forall w', same_link node w w' -> visit this node w' = (Normal tt, w')) ->
  exists w', traverse this nodeSet w = (Normal tt, w') /\ same_link node w w'.
Proof.
  intros Hstable. unfold traverse, bind.
  assert (exists n, (match nodeSet with
                     | Some n => ret n
                     | None => fun w => (Normal (document_body w), w)
                     end) w = (Normal n, w)) as [n ->].
  { destruct nodeSet as [n|]; by eexists. }
  destruct n as [id nodeName childNodes | id]; [| exists w; by split].
  pose proof (same_link_admits node (S node) (Nat.neq_succ_diag_l node)) as Hadmits.
  destruct (completes_this_log (same_link node) (S node) this false
              [LString "Traversing DOM..."] w) as ([] & w1 & -> & Hsame).
  destruct (for_nodes_stable this node
              (if is_anchor nodeName then [id] else getElementsByTagName_a childNodes) w1)
    as (w2 & -> & Hsame').
  { intros w' Hw'. apply Hstable. by transitivity w1. }
  exists w2. split; [reflexivity | by transitivity w1].
Qed.

Lemma for_nodes_outside this node nodes w :
  node ∉ nodes ->
  exists w', for_nodes this nodes w = (Normal tt, w') /\ same_link node w w'.
Proof.
  revert w. induction nodes as [|m rest IH]; intros w Hout; simpl.
  - exists w. by split.
  - apply not_elem_of_cons in Hout as [Hne Hout].
    pose proof (same_link_admits node m (not_eq_sym Hne)) as Hadmits.
    unfold bind.
    destruct (completes_visit (same_link node) m this w) as ([] & w1 & -> & Hsame).
    destruct (IH w1 Hout) as (w2 & -> & Hsame').
    exists w2. split; [reflexivity | by transitivity w1].
Qed.

Lemma traverse_outside this node root w :
  node ∉ scanned root ->
  exists w', traverse this (Some root) w = (Normal tt, w') /\ same_link node w w'.
Proof.
  intros Hout. unfold traverse, bind, ret.
  destruct root as [id nodeName childNodes | id]; [| exists w; by split].
  pose proof (same_link_admits node (S node) (Nat.neq_succ_diag_l node)) as Hadmits.
  destruct (completes_this_log (same_link node) (S node) this false
              [LString "Traversing DOM..."] w) as ([] & w1 & -> & Hsame).
  destruct (for_nodes_outside this node (scanned (Element id nodeName childNodes)) w1 Hout)
    as (w2 & Hloop & Hsame').
  simpl in Hloop. rewrite Hloop.
  exists w2. split; [reflexivity | by transitivity w1].
Qed.

(** When the visit of every link changes nothing, a traversal leaves all
    attributes and all records as they are. *)
Lemma traverse_all_stable this nodeSet w :
  (forall node w', same_link node w w' -> visit this node w' = (Normal tt, w')) ->
  exists w',
    traverse this nodeSet w = (Normal tt, w')
    /\ attributes w' = attributes w /\ docile w' = docile w.
Proof.
  intros Hstable.
  destruct (traverse_completes this nodeSet w) as ([] & w' & Htraverse & _).
  exists w'. split; [exact Htraverse |].
  split; apply map_eq; intros node;
    destruct (traverse_stable this node nodeSet w (Hstable node)) as (w2 & Hw2 & Ha & Hd);
    rewrite Htraverse in Hw2; by injection Hw2 as <-.
Qed.

Lemma visit_no_href this node w :
  attributes w !! node = None \/ attributes w !! node = Some "" ->
  visit this node w = (Normal tt, w).
Proof.
  intros Hattr. unfold visit, bind, getAttribute_href.
  by destruct Hattr as [-> | ->].
Qed.

Lemma visit_already_modified this node w d :
  docile w !! node = Some d ->
  attributes w !! node = Some (is_ d) ->
  is_ d <> "" ->
  href (parseURL (is_ d)) = is_ d ->
  visit this node w = (Normal tt, w).
Proof.
  intros Hrecord Hattr Hnonempty Hfixed.
  assert (negb (JsString.truthy (is_ d)) = false) as Htruthy.
  { by destruct (is_ d). }
  unfold visit, bind, getAttribute_href. rewrite Hattr, Htruthy.
  destruct (negb (includes _ _)); [reflexivity |].
  rewrite for_tags_skip; [reflexivity |].
  rewrite Hrecord. by apply already_modified_spec.
Qed.

End Stable.

(** ** Scanning and matching *)

Lemma includes_concat (h : string) (lists : list (list string)) :
  includes h (concat lists) = existsb (includes h) lists.
Proof.
  unfold includes. induction lists as [|l lists IH]; simpl; [reflexivity |].
  by rewrite existsb_app, IH.
Qed.

(** X1. The host list that the constructor builds is exact: a host is in
    it when, and only when, some tag of the configuration lists that host.
    The test on the host list in [traverse] therefore passes by no link
    that a tag would match. *)
Theorem host_filter_is_exact (raw : RawConfig) (w0 w1 : World) (this : Affiliate) (h : string) :
  constructor raw w0 = (Normal this, w1) ->
  includes h (hosts this) = true
  <-> exists tag, tag ∈ tags (config this) /\ includes h (tag_hosts tag) = true.
Proof.
  intros Hnew. rewrite (constructor_hosts _ _ _ _ Hnew), includes_concat, existsb_exists.
  split.
  - intros (hs & [tag [<- Htag]]%in_map_iff & Hh).
    exists tag. split; [by apply list_elem_of_In | exact Hh].
  - intros (tag & Htag%list_elem_of_In & Hh).
    exists (tag_hosts tag). split; [by apply in_map | exact Hh].
Qed.

(** Two tags, one with a single host given as a string, one with an
    array of two hosts. *)
Lemma host_filter_is_exact_witness :
  let raw :=
    Scenario.quiet
      [Scenario.raw_tag "shop.example" [] [];
       mkRawTag (Some (HostArray ["a.example"; "b.example"])) None None None] in
  exists this w1,
    constructor raw (Scenario.one_link "http://b.example/") = (Normal this, w1)
    /\ hosts this = ["shop.example"; "a.example"; "b.example"]
    /\ exists tag, tag ∈ tags (config this) /\ includes "b.example" (tag_hosts tag) = true.
Proof.
  intros raw.
  destruct (constructor raw (Scenario.one_link "http://b.example/")) as [[this|e] w1] eqn:Hnew;
    [| discriminate].
  exists this, w1. split; [reflexivity |].
  pose proof (host_filter_is_exact raw _ w1 this "b.example" Hnew) as [Hexact _].
  injection Hnew as <- _.
  split; [reflexivity | by apply Hexact].
Defined.

Section Scanning.

Context `{UrlParse}.

(** X2. An engine constructed without tags, or with an empty list of
    tags, rewrites nothing: a traversal from any node leaves every
    [href] attribute and the whole provenance store as they are. *)
Theorem no_tags_no_rewrite (raw : RawConfig) (w0 w1 : World) (this : Affiliate)
    (nodeSet : option Node) (w : World) :
  constructor raw w0 = (Normal this, w1) ->
  raw_tags raw = None \/ raw_tags raw = Some [] ->
  exists w',
    traverse this nodeSet w = (Normal tt, w')
    /\ attributes w' = attributes w /\ docile w' = docile w.
Proof.
  intros Hnew Hnone.
  assert (hosts this = []) as Hhosts.
  { rewrite (constructor_hosts _ _ _ _ Hnew).
    unfold constructor, bind, this_log, ret, Log in Hnew. simpl in Hnew.
    destruct (raw_log raw); injection Hnew as <- _; simpl;
      by destruct Hnone as [-> | ->]. }
  apply traverse_all_stable. intros node w' _.
  apply visit_filtered_out. intros value _. by rewrite Hhosts.
Qed.

(** X3. A traversal goes through the anchors below its starting node, or
    through the starting node alone when that is an anchor; a link that is
    not among them keeps its [href] and its provenance record, even when a
    tag matches its host. *)
Theorem traverse_touches_scanned_links_only (this : Affiliate) (root : Node) (node : nat)
    (w : World) :
  node ∉ scanned root ->
  exists w',
    traverse this (Some root) w = (Normal tt, w')
    /\ attributes w' !! node = attributes w !! node
    /\ docile w' !! node = docile w !! node.
Proof.
  intros Hout.
  destruct (traverse_outside this node root w Hout) as (w' & Htraverse & Hattr & Hrecord).
  exists w'. by split.
Qed.

(** X4. A link without an [href] attribute, or with an empty one, is
    passed by: a traversal from any node gives it no attribute and no
    provenance record. *)
Theorem link_without_href_is_skipped (this : Affiliate) (nodeSet : option Node) (node : nat)
    (w : World) :
  attributes w !! node = None \/ attributes w !! node = Some "" ->
  exists w',
    traverse this nodeSet w = (Normal tt, w')
    /\ attributes w' !! node = attributes w !! node
    /\ docile w' !! node = docile w !! node.
Proof.
  intros Hattr. apply traverse_stable. intros w' [Hsame _].
  apply visit_no_href. rewrite Hsame. exact Hattr.
Qed.

(** X5. A link whose [href] is the string stored as [is], when that string
    is not empty and parsing it gives back the same [href], is left as it
    is by a traversal from any node, whatever the tags are and however
    many of them match. *)
Theorem rescan_of_rewritten_link_is_noop (this : Affiliate) (nodeSet : option Node)
    (node : nat) (d : LinkData) (w : World) :
  docile w !! node = Some d ->
  attributes w !! node = Some (is_ d) ->
  is_ d <> "" ->
  href (parseURL (is_ d)) = is_ d ->
  exists w',
    traverse this nodeSet w = (Normal tt, w')
    /\ attributes w' !! node = Some (is_ d)
    /\ docile w' !! node = Some d.
Proof.
  intros Hrecord Hattr Hnonempty Hfixed.
  destruct (traverse_stable this node nodeSet w) as (w' & Htraverse & Ha & Hd).
  - intros w' [Ha Hd]. apply (visit_already_modified this node w' d); congruence.
  - exists w'. split; [exact Htraverse | split; congruence].
Qed.

(** X6. When the first tag that matches a link has no [replace] rules and
    no [modify], and the URL with its query merged is not empty, the loop
    over the tags does for the link what that tag's pipeline does and
    nothing more: every later tag finds the link already modified. *)
Theorem query_only_tag_shadows_later_tags (this : Affiliate) (url : Url) (node : nat)
    (tag : Tag) (rest : list Tag) (w : World) :
  includes (host url) (tag_hosts tag) = true ->
  already_modified (docile w !! node) url = false ->
  tag_replace tag = [] ->
  tag_modify tag = None ->
  href (merged url tag) <> "" ->
  for_tags this url node (tag :: rest) w = modifyURL this url node tag w.
Proof.
  intros Hmatch Hguard Hreplace Hmodify Hnonempty.
  simpl. rewrite Hmatch. unfold bind.
  destruct (modifyURL_run this url node tag w Hguard) as (w' & -> & _ & Hdocile).
  apply for_tags_skip.
  rewrite Hdocile, lookup_insert_eq.
  assert (rewritten url tag = href (merged url tag)) as ->.
  { unfold rewritten, after_modify. by rewrite Hreplace, Hmodify. }
  by apply already_modified_spec.
Qed.

End Scanning.

(** An engine without tags on a page with a link. *)
Lemma no_tags_no_rewrite_witness :
  let raw := mkRawConfig None false in
  let w := Scenario.one_link "http://shop.example/x" in
  exists this w',
    traverse this None w = (Normal tt, w')
    /\ attributes w' !! 1 = Some "http://shop.example/x"
    /\ docile w' = ∅.
Proof.
  intros raw w.
  destruct (constructor raw w) as [[this|e] w1] eqn:Hnew; [| discriminate].
  destruct (no_tags_no_rewrite raw w w1 this None w Hnew) as (w' & Htraverse & Hattr & Hrecord).
  - by left.
  - exists this, w'. split; [exact Htraverse |]. by rewrite Hattr, Hrecord.
Defined.

(** Two links to the same host in two parts of the page: a traversal of
    the first part rewrites its link and leaves the link of the second. *)
Lemma traverse_touches_scanned_links_only_witness :
  let tag := mkTag ["shop.example"] [("ref", "A")] [] None in
  let this := mkAffiliate false (mkConfig [tag] false) ["shop.example"] false in
  let first := Element 10 "DIV" [Element 1 "A" []] in
  let second := Element 20 "DIV" [Element 2 "A" []] in
  let w := Scenario.page (Element 0 "BODY" [first; second])
             [(1, "http://shop.example/x"); (2, "http://shop.example/y")] in
  exists w',
    traverse this (Some first) w = (Normal tt, w')
    /\ attributes w' !! 1 = Some "http://shop.example/x?ref=A"
    /\ attributes w' !! 2 = Some "http://shop.example/y"
    /\ docile w' !! 2 = None.
Proof.
  intros tag this first second w.
  destruct (traverse_touches_scanned_links_only this first 2 w) as (w' & Htraverse & Hattr & Hrecord).
  - intros Hin. vm_compute in Hin. apply list_elem_of_singleton in Hin. discriminate.
  - exists w'. split; [exact Htraverse |].
    split; [| split; [exact Hattr | exact Hrecord]].
    vm_compute in Htraverse. injection Htraverse as <-. reflexivity.
Defined.

(** A link with an empty [href]. The tag lists the empty host, which is
    what the reference parser gives for the empty address, so it is the
    test on the attribute that passes the link by. *)
Lemma link_without_href_is_skipped_witness :
  let tag := mkTag [""] [("ref", "A")] [] None in
  let this := mkAffiliate false (mkConfig [tag] false) [""] false in
  let w := Scenario.one_link "" in
  exists w',
    traverse this None w = (Normal tt, w')
    /\ attributes w' !! 1 = Some "" /\ docile w' !! 1 = None.
Proof.
  intros tag this w.
  destruct (link_without_href_is_skipped this None 1 w) as (w' & Htraverse & Hattr & Hrecord).
  - by right.
  - exists w'. split; [exact Htraverse | split; [exact Hattr | exact Hrecord]].
Defined.

(** A second traversal of a page whose link the first one rewrote. *)
Lemma rescan_of_rewritten_link_is_noop_witness :
  let tag := mkTag ["shop.example"] [("ref", "A")] [mkReplacement "http:" "https:"] None in
  let this := mkAffiliate false (mkConfig [tag] false) ["shop.example"] false in
  let w := Scenario.exec (traverse this None) (Scenario.one_link "http://shop.example/x") in
  attributes w !! 1 = Some "https://shop.example/x?ref=A"
  /\ exists w',
       traverse this None w = (Normal tt, w')
       /\ attributes w' !! 1 = Some "https://shop.example/x?ref=A"
       /\ docile w' !! 1
          = Some {| was := "http://shop.example/x"; is_ := "https://shop.example/x?ref=A" |}.
Proof.
  intros tag this w. split; [reflexivity |].
  apply (rescan_of_rewritten_link_is_noop this None 1
           {| was := "http://shop.example/x"; is_ := "https://shop.example/x?ref=A" |} w).
  - reflexivity.
  - reflexivity.
  - discriminate.
  - reflexivity.
Defined.

(** A tag that only merges [{ref: "A"}], followed by a tag with a rule
    for [ref=A]: the loop over both does what the first tag does. *)
Lemma query_only_tag_shadows_later_tags_witness :
  let tag1 := mkTag ["shop.example"] [("ref", "A")] [] None in
  let tag2 := mkTag ["shop.example"] [] [mkReplacement "ref=A" "ref=B"] None in
  let this := mkAffiliate false (mkConfig [tag1; tag2] false) ["shop.example"] false in
  let url := parseURL "http://shop.example/x" in
  let w := Scenario.one_link "http://shop.example/x" in
  for_tags this url 1 [tag1; tag2] w = modifyURL this url 1 tag1 w
  /\ attributes (snd (for_tags this url 1 [tag1; tag2] w)) !! 1
     = Some "http://shop.example/x?ref=A".
Proof.
  intros tag1 tag2 this url w.
  pose proof (query_only_tag_shadows_later_tags this url 1 tag1 [tag2] w) as Hshadow.
  split; [| reflexivity].
  apply Hshadow; [reflexivity | reflexivity | reflexivity | reflexivity | discriminate].
Defined.

(** ** Invariants of the engine *)

#[local] Instance nothing_removed_preorder : PreOrder nothing_removed.
Proof.
  split.
  - by intros w node.
  - intros w1 w2 w3 H12 H23 node.
    destruct (H12 node) as [Ha Hd], (H23 node) as [Ha' Hd']. split; auto.
Qed.

#[local] Instance nothing_removed_admits node : Admits nothing_removed node.
Proof.
  split; intros w x other; simpl; split; try done.
  - intros Hsome. destruct (decide (node = other)) as [-> | Hne].
    + rewrite lookup_insert_eq. by eexists.
    + by rewrite lookup_insert_ne.
  - intros Hsome. destruct (decide (node = other)) as [-> | Hne].
    + rewrite lookup_insert_eq. by eexists.
    + by rewrite lookup_insert_ne.
Qed.

Section Invariants.

Context `{UrlParse}.

Lemma consistent_this_log this data : preserves consistent (this_log this false data).
Proof.
  intros w Hw. unfold this_log. by destruct (log (config this)).
Qed.

Lemma consistent_modifyURL this url node tag : preserves consistent (modifyURL this url node tag).
Proof.
  intros w Hw.
  destruct (already_modified (docile w !! node) url) eqn:Hguard.
  - by rewrite modifyURL_skip.
  - destruct (modifyURL_run this url node tag w Hguard) as (w' & -> & Hattr & Hdocile).
    simpl. intros other d. rewrite Hattr, Hdocile.
    destruct (decide (node = other)) as [-> | Hne].
    + rewrite !lookup_insert_eq. by intros [= <-].
    + rewrite !lookup_insert_ne by done. apply Hw.
Qed.

(** X7. The engine keeps every recorded link in step with its record:
    when each link that has a provenance record has the [href] stored
    as [is], the same holds after a traversal, after the observer
    callback on any batch, after [attach] and after [detach]. On a page
    without records it holds to begin with. *)
Theorem href_stays_equal_to_is (this : Affiliate) (w : World) :
  consistent w ->
  (forall nodeSet, consistent (snd (traverse this nodeSet w)))
  /\ (forall mutations, consistent (snd (observer_callback this mutations w)))
  /\ consistent (snd (attach this w))
  /\ consistent (snd (detach this w)).
Proof.
  intros Hw.
  pose proof (fun this0 data (_ : config this0 = config this) =>
                consistent_this_log this0 data) as Hlog.
  pose proof (fun this0 url node tag (_ : config this0 = config this)
                  (_ : tag ∈ tags (config this)) =>
                consistent_modifyURL this0 url node tag) as Hmodify.
  split; [| split; [| split]].
  - intros nodeSet. by apply (traverse_preserves (config this) consistent Hlog Hmodify).
  - intros mutations.
    by apply (observer_loop_preserves (config this) consistent Hlog Hmodify).
  - by apply (attach_preserves (config this) consistent Hlog Hmodify).
  - by apply (detach_preserves (config this) consistent Hlog).
Qed.

(** X8. The engine deletes no provenance record: an element that has a
    record has one after a traversal, after the observer callback on any
    batch, after [attach] and after [detach]. *)
Theorem provenance_record_is_never_deleted (this : Affiliate) (w : World) (node : nat) :
  is_Some (docile w !! node) ->
  (forall nodeSet, is_Some (docile (snd (traverse this nodeSet w)) !! node))
  /\ (forall mutations, is_Some (docile (snd (observer_callback this mutations w)) !! node))
  /\ is_Some (docile (snd (attach this w)) !! node)
  /\ is_Some (docile (snd (detach this w)) !! node).
Proof.
  intros Hrecord.
  assert (forall w n, nothing_removed w (with_listeners w n)) as Hlistener.
  { by intros w0 n other. }
  split; [| split; [| split]].
  - intros nodeSet.
    destruct (traverse_respects nothing_removed _ this nodeSet w) as (a & w' & -> & Hkept).
    by apply Hkept.
  - intros mutations. unfold observer_callback.
    destruct (observer_loop_respects nothing_removed _ this false mutations w)
      as (a & w' & -> & Hkept).
    by apply Hkept.
  - destruct (attach_respects nothing_removed _ Hlistener this w) as (a & w' & -> & Hkept).
    by apply Hkept.
  - destruct (detach_respects nothing_removed _ this w) as (a & w' & -> & Hkept).
    by apply Hkept.
Qed.

Lemma quiet_modifyURL this url node tag w :
  log (config this) = false -> returns_url_or_string tag ->
  console (snd (modifyURL this url node tag w)) = console w.
Proof.
  intros Hlog Hnever.
  unfold modifyURL, bind, Docile_get.
  destruct (already_modified (docile w !! node) url); [reflexivity |].
  unfold this_log. rewrite Hlog.
  unfold ret, try_catch, bind, call, setAttribute_href, Docile_set.
  destruct (tag_modify tag) as [modify|] eqn:Hmodify; [| reflexivity].
  destruct (Hnever modify
              (Url_set_query url (JsObject.spread (query url) (tag_query tag))) Hmodify)
    as (r & -> & Hreturned).
  by destruct r.
Qed.

(** X9. With logging off and tags whose [modify], if any, returns an
    object with an [href] or a string on every URL (it neither throws nor
    returns [undefined] or [null]), the engine writes nothing to the
    console: not in a traversal, not in the observer callback, not in
    [attach] and not in [detach]. *)
Theorem engine_is_silent_with_logging_off (this : Affiliate) (w : World) :
  log (config this) = false ->
  (forall tag, tag ∈ tags (config this) -> returns_url_or_string tag) ->
  (forall nodeSet, console (snd (traverse this nodeSet w)) = console w)
  /\ (forall mutations, console (snd (observer_callback this mutations w)) = console w)
  /\ console (snd (attach this w)) = console w
  /\ console (snd (detach this w)) = console w.
Proof.
  intros Hoff Hnever.
  set (P := fun w' : World => console w' = console w).
  assert (forall this0 data, config this0 = config this ->
                             preserves P (this_log this0 false data)) as Hlog.
  { intros this0 data Hcfg w' Hw'. unfold this_log. by rewrite Hcfg, Hoff. }
  assert (forall this0 url node tag, config this0 = config this -> tag ∈ tags (config this) ->
                                     preserves P (modifyURL this0 url node tag)) as Hmodify.
  { intros this0 url node tag Hcfg Htag w' Hw'. unfold P.
    rewrite quiet_modifyURL; [exact Hw' | by rewrite Hcfg | by apply Hnever]. }
  split; [| split; [| split]].
  - intros nodeSet. by apply (traverse_preserves (config this) P Hlog Hmodify).
  - intros mutations. by apply (observer_loop_preserves (config this) P Hlog Hmodify).
  - by apply (attach_preserves (config this) P Hlog Hmodify).
  - by apply (detach_preserves (config this) P Hlog).
Qed.

(** X10. Nothing that a tag's [modify] throws leaves the observer
    callback, [attach] or [detach]: each of them completes normally in
    every world, on every batch of records. *)
Theorem callback_and_lifecycle_complete_normally (this : Affiliate)
    (mutations : list MutationRecord) (w : World) :
  (exists w', observer_callback this mutations w = (Normal tt, w'))
  /\ (exists this' w', attach this w = (Normal this', w'))
  /\ (exists this' w', detach this w = (Normal this', w')).
Proof.
  assert (forall w n, any_world w (with_listeners w n)) as Hlistener; [done |].
  split; [| split].
  - destruct (observer_loop_respects any_world _ this false mutations w) as ([] & w' & Hrun & _).
    by exists w'.
  - destruct (attach_respects any_world _ Hlistener this w) as (this' & w' & Hrun & _).
    by exists this', w'.
  - destruct (detach_respects any_world _ this w) as (this' & w' & Hrun & _).
    by exists this', w'.
Qed.

End Invariants.

(** A page on which no engine has run, then a traversal: the link's
    [href] is the [is] of the record it got. *)
Lemma href_stays_equal_to_is_witness :
  let tag := mkTag ["shop.example"] [("ref", "A")] [mkReplacement "http:" "https:"] None in
  let this := mkAffiliate false (mkConfig [tag] false) ["shop.example"] false in
  let w' := snd (traverse this None (Scenario.one_link "http://shop.example/x")) in
  exists d, docile w' !! 1 = Some d /\ attributes w' !! 1 = Some (is_ d).
Proof.
  intros tag this w'.
  destruct (href_stays_equal_to_is this (Scenario.one_link "http://shop.example/x"))
    as [Htraverse _].
  - intros node d Hrecord. vm_compute in Hrecord. discriminate.
  - exists {| was := "http://shop.example/x"; is_ := "https://shop.example/x?ref=A" |}.
    split; [reflexivity |].
    apply (Htraverse None 1). reflexivity.
Defined.

(** The record that a traversal gave a link is there after the callback
    has gone through a record for the body. *)
Lemma provenance_record_is_never_deleted_witness :
  let tag := mkTag ["shop.example"] [("ref", "A")] [] None in
  let this := mkAffiliate false (mkConfig [tag] false) ["shop.example"] false in
  let w := snd (traverse this None (Scenario.one_link "http://shop.example/x")) in
  let m := mkMutationRecord childList_type None Scenario.body in
  is_Some (docile w !! 1)
  /\ is_Some (docile (snd (observer_callback this [m] w)) !! 1).
Proof.
  intros tag this w m.
  assert (is_Some (docile w !! 1)) as Hrecord; [by eexists |].
  split; [exact Hrecord |].
  by apply (provenance_record_is_never_deleted this w 1 Hrecord).
Defined.

(** A tag whose [modify] returns a string, with logging off. *)
Lemma engine_is_silent_with_logging_off_witness :
  let modify := fun _ : Url => Normal (RetString "http://shop.example/z") in
  let tag := mkTag ["shop.example"] [("ref", "A")] [] (Some modify) in
  let this := mkAffiliate false (mkConfig [tag] false) ["shop.example"] false in
  let w := Scenario.one_link "http://shop.example/x" in
  console (snd (traverse this None w)) = []
  /\ attributes (snd (traverse this None w)) !! 1 = Some "http://shop.example/z".
Proof.
  intros modify tag this w.
  destruct (engine_is_silent_with_logging_off this w) as [Htraverse _].
  - reflexivity.
  - intros tag' Htag%list_elem_of_singleton modify' u Hmodify. subst tag'.
    injection Hmodify as <-. by eexists.
  - split; [apply Htraverse | reflexivity].
Defined.

(** ** The observer callback on other records *)

Section Observer.

Context `{UrlParse}.

(** X11. A batch that holds only records of changes to attributes other
    than [href] goes by without effect: the callback does not traverse,
    does not log, and leaves the world as it is. *)
Theorem other_attribute_records_are_ignored (this : Affiliate)
    (mutations : list MutationRecord) (w : World) :
  Forall (fun m => type m = attributes_type /\ attributeName m <> Some "href") mutations ->
  observer_callback this mutations w = (Normal tt, w).
Proof.
  intros Hall.
  assert (forall emitted, observer_loop this emitted mutations w = (Normal tt, w)) as Hloop;
    [| apply Hloop].
  intros emitted. induction Hall as [|m rest [Htype Hname] _ IH]; [reflexivity |].
  simpl. unfold bind at 1. unfold skipped. rewrite Htype.
  rewrite bool_decide_eq_false_2 by exact Hname. simpl. exact IH.
Qed.

(** X12. A record that is not an attribute record and whose target is a
    text node leads to no rewrite: the callback logs the mutation, the
    traversal of the text node returns at once, and every attribute and
    record stays. *)
Theorem text_node_record_rewrites_nothing (this : Affiliate) (m : MutationRecord)
    (id : nat) (w : World) :
  target m = TextNode id ->
  type m <> attributes_type ->
  observer_callback this [m] w
  = this_log this false [LString "DOM Mutation"; LMutation id] w
  /\ attributes (snd (observer_callback this [m] w)) = attributes w
  /\ docile (snd (observer_callback this [m] w)) = docile w.
Proof.
  intros Htarget Htype.
  assert (observer_callback this [m] w
          = this_log this false [LString "DOM Mutation"; LMutation id] w) as Hrun.
  { unfold observer_callback. simpl. unfold bind at 1.
    assert (skipped m w = (Normal false, w)) as ->.
    { unfold skipped. by destruct (type m). }
    unfold bind, traverse, ret. rewrite Htarget. simpl.
    by destruct (this_log this false [LString "DOM Mutation"; LMutation id] w) as [[[]|e] w']. }
  split; [exact Hrun |]. rewrite Hrun.
  unfold this_log. by destruct (log (config this)).
Qed.

Lemma observer_loop_outside this node emitted mutations w :
  Forall (fun m => node ∉ scanned (target m)) mutations ->
  exists w', observer_loop this emitted mutations w = (Normal tt, w') /\ same_link node w w'.
Proof.
  intros Hall. revert emitted w.
  induction Hall as [|m rest Hout _ IH]; intros emitted w; simpl.
  - exists w. by split.
  - unfold bind at 1.
    destruct (skipped_reads m w) as [skip ->].
    destruct skip; [apply IH |].
    pose proof (same_link_admits node (S node) (Nat.neq_succ_diag_l node)) as Hadmits.
    unfold bind.
    assert (exists w1,
              (if emitted then ret tt
               else this_log this false [LString "DOM Mutation"; LMutation (node_id (target m))]) w
              = (Normal tt, w1) /\ same_link node w w1) as (w1 & -> & Hsame1).
    { destruct emitted; [exists w; by split |].
      destruct (completes_this_log (same_link node) (S node) this false
                  [LString "DOM Mutation"; LMutation (node_id (target m))] w)
        as ([] & w1 & Hlog & Hsame).
      by exists w1. }
    destruct (traverse_outside this node (target m) w1 Hout) as (w2 & -> & Hsame2).
    destruct (IH true w2) as (w3 & -> & Hsame3).
    exists w3. split; [reflexivity |].
    transitivity w1; [done |]. by transitivity w2.
Qed.

(** X13. The callback rewrites only below the targets of its records: a
    link that is not among the links scanned from any target in the batch
    keeps its [href] and its provenance record. *)
Theorem callback_touches_links_under_targets_only (this : Affiliate)
    (mutations : list MutationRecord) (node : nat) (w : World) :
  Forall (fun m => node ∉ scanned (target m)) mutations ->
  exists w',
    observer_callback this mutations w = (Normal tt, w')
    /\ attributes w' !! node = attributes w !! node
    /\ docile w' !! node = docile w !! node.
Proof.
  intros Hall.
  destruct (observer_loop_outside this node false mutations w Hall) as (w' & Hrun & Ha & Hd).
  exists w'. by split.
Qed.

End Observer.

(** A change of the [class] attribute of a link, with logging on. *)
Lemma other_attribute_records_are_ignored_witness :
  let tag := mkTag ["shop.example"] [("ref", "A")] [] None in
  let this := mkAffiliate true (mkConfig [tag] true) ["shop.example"] true in
  let m := mkMutationRecord attributes_type (Some "class") Scenario.link in
  let w := Scenario.one_link "http://shop.example/x" in
  observer_callback this [m; m] w = (Normal tt, w).
Proof.
  intros tag this m w.
  apply other_attribute_records_are_ignored.
  repeat (apply Forall_cons; split; [split; [reflexivity | discriminate] |]).
  apply Forall_nil_2.
Defined.

(** A change of the text of a link, with logging on: one entry in the
    console, no rewrite. *)
Lemma text_node_record_rewrites_nothing_witness :
  let tag := mkTag ["shop.example"] [("ref", "A")] [] None in
  let this := mkAffiliate true (mkConfig [tag] true) ["shop.example"] true in
  let m := mkMutationRecord characterData_type None (TextNode 5) in
  let w := Scenario.page (Element 0 "BODY" [Element 1 "A" [TextNode 5]])
             [(1, "http://shop.example/x")] in
  console (snd (observer_callback this [m] w))
  = [mkLogEntry false [LString "DOM Mutation"; LMutation 5]]
  /\ attributes (snd (observer_callback this [m] w)) !! 1 = Some "http://shop.example/x".
Proof.
  intros tag this m w.
  destruct (text_node_record_rewrites_nothing this m 5 w) as (Hrun & Hattr & _).
  - reflexivity.
  - discriminate.
  - split; [by rewrite Hrun | by rewrite Hattr].
Defined.

(** A child-list record for the first part of a page with a link in each
    of its two parts. *)
Lemma callback_touches_links_under_targets_only_witness :
  let tag := mkTag ["shop.example"] [("ref", "A")] [] None in
  let this := mkAffiliate true (mkConfig [tag] false) ["shop.example"] true in
  let first := Element 10 "DIV" [Element 1 "A" []] in
  let second := Element 20 "DIV" [Element 2 "A" []] in
  let w := Scenario.page (Element 0 "BODY" [first; second])
             [(1, "http://shop.example/x"); (2, "http://shop.example/y")] in
  let m := mkMutationRecord childList_type None first in
  exists w',
    observer_callback this [m] w = (Normal tt, w')
    /\ attributes w' !! 1 = Some "http://shop.example/x?ref=A"
    /\ attributes w' !! 2 = Some "http://shop.example/y"
    /\ docile w' !! 2 = None.
Proof.
  intros tag this first second w m.
  destruct (callback_touches_links_under_targets_only this [m] 2 w)
    as (w' & Hrun & Hattr & Hrecord).
  - apply Forall_cons. split; [| apply Forall_nil_2].
    intros Hin. vm_compute in Hin. apply list_elem_of_singleton in Hin. discriminate.
  - exists w'. split; [exact Hrun |].
    split; [| split; [exact Hattr | exact Hrecord]].
    vm_compute in Hrun. injection Hrun as <-. reflexivity.
Defined.

(** ** Attaching and detaching *)

Section Lifecycle.

Context `{UrlParse}.

Lemma attach_attached this w : attached this = true -> attach this w = (Normal this, w).
Proof. intros Hattached. unfold attach. by rewrite Hattached. Qed.

Lemma this_log_environment this data w :
  canObserve (snd (this_log this false data w)) = canObserve w
  /\ readyState (snd (this_log this false data w)) = readyState w.
Proof. unfold this_log. by destruct (log (config this)). Qed.

Lemma modifyURL_environment this url node tag w :
  canObserve (snd (modifyURL this url node tag w)) = canObserve w
  /\ readyState (snd (modifyURL this url node tag w)) = readyState w.
Proof.
  unfold modifyURL, bind, Docile_get.
  destruct (already_modified (docile w !! node) url); [done |].
  unfold this_log, ret, try_catch, bind, call, Log, setAttribute_href, Docile_set.
  destruct (log (config this)), (tag_modify tag) as [modify|];
    try (destruct (modify _) as [returnedURL | e];
         [destruct (reparse returnedURL) as [returned | e] |]);
    by simpl.
Qed.

Lemma traverse_environment this nodeSet w :
  canObserve (snd (traverse this nodeSet w)) = canObserve w
  /\ readyState (snd (traverse this nodeSet w)) = readyState w.
Proof.
  set (P := fun w' : World => canObserve w' = canObserve w /\ readyState w' = readyState w).
  apply (traverse_preserves (config this) P); [| | reflexivity | by split].
  - intros this0 data _ w' [Hc Hr].
    destruct (this_log_environment this0 data w') as [Hc' Hr']. split; congruence.
  - intros this0 url node tag _ _ w' [Hc Hr].
    destruct (modifyURL_environment this0 url node tag w') as [Hc' Hr']. split; congruence.
Qed.

(** X14. Once the document is ready, [attach] leaves the engine attached,
    and a further [attach] does nothing: it does not traverse again and
    leaves the engine and the world as they are. *)
Theorem attach_twice_is_attach_once (this : Affiliate) (w : World) :
  document_ready (readyState w) = true ->
  exists this' w',
    attach this w = (Normal this', w')
    /\ attached this' = true
    /\ attach this' w' = (Normal this', w').
Proof.
  intros Hready.
  destruct (attached this) eqn:Hattached.
  - exists this, w. by rewrite attach_attached.
  - unfold attach at 1. rewrite Hattached, Hready. unfold bind.
    destruct (traverse_completes (set_attached this true) None w) as ([] & w1 & -> & _).
    destruct (canObserve w).
    + eexists _, w1. split; [reflexivity |]. split; [reflexivity | by apply attach_attached].
    + unfold this_log, ret, Log. destruct (log (config (set_attached this true)));
        eexists _, _; (split; [reflexivity |]); (split; [reflexivity | by apply attach_attached]).
Qed.

(** X15. Where the observer exists, [detach] leaves the engine detached
    with its observer disconnected, and the next [attach], on a ready
    document, traverses the whole body again and connects the observer
    again. *)
Theorem attach_after_detach_traverses_again (this : Affiliate) (w : World) :
  canObserve w = true ->
  document_ready (readyState w) = true ->
  exists this1 w1 w2,
    detach this w = (Normal this1, w1)
    /\ attached this1 = false /\ observing this1 = false
    /\ traverse (set_attached this1 true) None w1 = (Normal tt, w2)
    /\ attach this1 w1 = (Normal (set_observing (set_attached this1 true) true), w2).
Proof.
  intros Hcan Hready.
  assert (exists w1,
            detach this w = (Normal (set_observing (set_attached this false) false), w1)
            /\ canObserve w1 = true /\ readyState w1 = readyState w) as (w1 & Hdetach & Hcan1 & Hready1).
  { unfold detach. rewrite Hcan. simpl. unfold bind, this_log, ret, Log. simpl.
    destruct (log (config this)); by eexists. }
  destruct (traverse_completes
              (set_attached (set_observing (set_attached this false) false) true) None w1)
    as ([] & w2 & Htraverse & _).
  exists (set_observing (set_attached this false) false), w1, w2.
  split; [exact Hdetach |]. split; [reflexivity |]. split; [reflexivity |].
  split; [exact Htraverse |].
  unfold attach.
  change (attached (set_observing (set_attached this false) false)) with false.
  cbv beta iota. rewrite Hready1, Hready. unfold bind.
  rewrite Htraverse, Hcan1. reflexivity.
Qed.

(** X16. Where the observer does not exist, an engine that has attached
    stays attached: [detach] returns at once and changes nothing, so
    every later [attach] finds the engine attached and does not traverse
    again. *)
Theorem without_observer_detach_does_nothing (this : Affiliate) (w : World) :
  canObserve w = false ->
  document_ready (readyState w) = true ->
  attached this = false ->
  exists this1 w1,
    attach this w = (Normal this1, w1)
    /\ attached this1 = true
    /\ detach this1 w1 = (Normal this1, w1)
    /\ attach this1 w1 = (Normal this1, w1).
Proof.
  intros Hcan Hready Hattached.
  unfold attach at 1. rewrite Hattached, Hready, Hcan. unfold bind.
  destruct (traverse_completes (set_attached this true) None w) as ([] & w1 & Htraverse & _).
  rewrite Htraverse.
  assert (canObserve w1 = false) as Hcan1.
  { destruct (traverse_environment (set_attached this true) None w) as [Hc _].
    rewrite Htraverse in Hc. simpl in Hc. congruence. }
  assert (exists w2, this_log (set_attached this true) false
                       [LString "Browser does not support MutationObserver."] w1
                     = (Normal tt, w2) /\ canObserve w2 = false) as (w2 & -> & Hcan2).
  { unfold this_log, ret, Log. destruct (log (config (set_attached this true))); by eexists. }
  exists (set_attached this true), w2.
  split; [reflexivity |]. split; [reflexivity |].
  split; [| by apply attach_attached].
  unfold detach. by rewrite Hcan2.
Qed.

End Lifecycle.

(** A fresh engine on a loaded page: the first [attach] rewrites the link,
    the second changes nothing. *)
Lemma attach_twice_is_attach_once_witness :
  let tag := mkTag ["shop.example"] [("ref", "A")] [] None in
  let this := mkAffiliate false (mkConfig [tag] false) ["shop.example"] false in
  exists this' w',
    attach this (Scenario.one_link "http://shop.example/x") = (Normal this', w')
    /\ attributes w' !! 1 = Some "http://shop.example/x?ref=A"
    /\ attach this' w' = (Normal this', w').
Proof.
  intros tag this.
  destruct (attach_twice_is_attach_once this (Scenario.one_link "http://shop.example/x"))
    as (this' & w' & Hattach & _ & Hagain).
  - reflexivity.
  - exists this', w'. split; [exact Hattach |]. split; [| exact Hagain].
    vm_compute in Hattach. injection Hattach as _ <-. reflexivity.
Defined.

(** An attached engine on a page whose link was set back by other code:
    [detach], then [attach], rewrites it again. *)
Lemma attach_after_detach_traverses_again_witness :
  let tag := mkTag ["shop.example"] [("ref", "A")] [] None in
  let this := mkAffiliate true (mkConfig [tag] false) ["shop.example"] true in
  exists this1 w1 this2 w2,
    detach this (Scenario.one_link "http://shop.example/x") = (Normal this1, w1)
    /\ attach this1 w1 = (Normal this2, w2)
    /\ attributes w2 !! 1 = Some "http://shop.example/x?ref=A".
Proof.
  intros tag this.
  destruct (attach_after_detach_traverses_again this (Scenario.one_link "http://shop.example/x"))
    as (this1 & w1 & w2 & Hdetach & _ & _ & Htraverse & Hattach).
  - reflexivity.
  - reflexivity.
  - exists this1, w1, (set_observing (set_attached this1 true) true), w2.
    split; [exact Hdetach |]. split; [exact Hattach |].
    vm_compute in Hdetach. injection Hdetach as <- <-.
    vm_compute in Htraverse. injection Htraverse as <-. reflexivity.
Defined.

(** A loaded page in a browser without [MutationObserver]. *)
Lemma without_observer_detach_does_nothing_witness :
  let tag := mkTag ["shop.example"] [("ref", "A")] [] None in
  let this := mkAffiliate false (mkConfig [tag] false) ["shop.example"] false in
  let w := {| attributes := {[ 1 := "http://shop.example/x" ]}; docile := ∅; console := [];
              document_body := Scenario.body; readyState := "interactive";
              canObserve := false; contentLoaded_listeners := 0 |} in
  exists this1 w1,
    attach this w = (Normal this1, w1)
    /\ attached this1 = true
    /\ detach this1 w1 = (Normal this1, w1)
    /\ attach this1 w1 = (Normal this1, w1).
Proof.
  intros tag this w.
  apply (without_observer_detach_does_nothing this w); reflexivity.
Defined.

(** ** Replacement rules at the edges *)

Section ReplaceEdges.

Lemma indexOf_empty (s : string) : JsString.indexOf "" s = Some 0.
Proof. by destruct s. Qed.

(** A string is what is before a match, the match and what is after it. *)
Lemma substring_decompose (s : string) :
  forall i n pat,
    String.substring i n s = pat -> String.length pat = n ->
    String.substring 0 i s +:+ pat +:+ String.substring (i + n) (String.length s - (i + n)) s
    = s.
Proof.
  induction s as [|c s IH]; intros i n pat Hsub Hlen.
  - assert (pat = "") as -> by (destruct i, n; simpl in Hsub; congruence).
    simpl in Hlen. subst n. by destruct i.
  - destruct i as [|i].
    + destruct n as [|n]; simpl in Hsub; subst pat.
      * simpl. by rewrite substring_zero_length.
      * simpl in Hlen. injection Hlen as Hlen.
        simpl. rewrite append_empty_l, append_cons. f_equal.
        pose proof (IH 0 n _ eq_refl Hlen) as Hrest.
        assert (String.substring 0 0 s = "") as Hnone by (by destruct s).
        by rewrite Hnone in Hrest.
    + simpl in Hsub. simpl. rewrite append_cons. f_equal.
      by apply IH.
Qed.

Lemma replace_decompose (s pat : string) (i : nat) :
  JsString.indexOf pat s = Some i ->
  JsString.slice_to i s +:+ pat +:+ JsString.slice_from (i + String.length pat) s = s.
Proof.
  intros Hidx. unfold JsString.slice_to, JsString.slice_from.
  apply substring_decompose; [| reflexivity].
  by apply (String.index_correct1 0).
Qed.

(** X17. A rule with an empty [from] matches at the start of the URL: the
    replacement text is put in front of the running string, which is kept
    whole, and the later rules go on from there. *)
Theorem empty_from_prepends (s tpl : string) (rest : list Replacement) :
  JsString.dollar_free tpl = true ->
  JsString.replace s "" tpl = tpl +:+ s
  /\ apply_replace (mkReplacement "" tpl :: rest) s = apply_replace rest (tpl +:+ s).
Proof.
  intros Hfree.
  assert (JsString.replace s "" tpl = tpl +:+ s) as Hreplace.
  { unfold JsString.replace. rewrite indexOf_empty. cbv zeta.
    rewrite getSubstitution_dollar_free by exact Hfree.
    unfold JsString.slice_to, JsString.slice_from. simpl String.length.
    rewrite Nat.add_0_r, Nat.sub_0_r, substring_zero_length.
    by destruct s. }
  split; [exact Hreplace |].
  unfold apply_replace. simpl. by rewrite Hreplace.
Qed.

(** X18. A rule that puts back what it matched changes nothing: with the
    replacement text [$&], which stands for the matched text, or with a
    [to] equal to a [from] without dollar signs, the running string comes
    out as it went in, whether [from] occurs in it or not. *)
Theorem put_back_rule_changes_nothing (s pat tpl : string) :
  tpl = "$&" \/ (tpl = pat /\ JsString.dollar_free pat = true) ->
  JsString.replace s pat tpl = s
  /\ apply_replace [mkReplacement pat tpl] s = s.
Proof.
  intros Hback.
  assert (JsString.replace s pat tpl = s) as Hreplace; [| by split].
  unfold JsString.replace.
  destruct (JsString.indexOf pat s) as [i|] eqn:Hidx; [| reflexivity].
  cbv zeta.
  assert (JsString.getSubstitution pat (JsString.slice_to i s)
            (JsString.slice_from (i + String.length pat) s) tpl = pat) as ->.
  { destruct Hback as [-> | [-> Hfree]].
    - simpl. apply append_empty_r.
    - by apply getSubstitution_dollar_free. }
  by apply replace_decompose.
Qed.

End ReplaceEdges.

(** The rule [{from: "", to: "//proxy.example/?u="}]. *)
Lemma empty_from_prepends_witness :
  apply_replace [mkReplacement "" "//proxy.example/?u="] "http://shop.example/x"
  = "//proxy.example/?u=http://shop.example/x".
Proof.
  destruct (empty_from_prepends "http://shop.example/x" "//proxy.example/?u=" [])
    as [_ Hrules]; [reflexivity |].
  exact Hrules.
Defined.

(** The rules [{from: "shop", to: "$&"}] and [{from: "shop", to: "shop"}]. *)
Lemma put_back_rule_changes_nothing_witness :
  JsString.replace "http://shop.example/x" "shop" "$&" = "http://shop.example/x"
  /\ JsString.replace "http://shop.example/x" "shop" "shop" = "http://shop.example/x".
Proof.
  split.
  - apply (put_back_rule_changes_nothing "http://shop.example/x" "shop" "$&"). by left.
  - apply (put_back_rule_changes_nothing "http://shop.example/x" "shop" "shop"). by right.
Defined.

(** ** Hosts and letter case *)

Lemma lower_ascii_idempotent (c : ascii) :
  JsString.lower_ascii (JsString.lower_ascii c) = JsString.lower_ascii c.
Proof. by destruct c as [[] [] [] [] [] [] [] []]. Qed.

Lemma toLowerCase_idempotent (s : string) :
  JsString.toLowerCase (JsString.toLowerCase s) = JsString.toLowerCase s.
Proof.
  induction s as [|c s IH]; simpl; [reflexivity |].
  by rewrite lower_ascii_idempotent, IH.
Qed.

Lemma reference_lowercases_host : lowercases_host (H := UrlParseModel.reference).
Proof.
  intros address. simpl. unfold UrlParseModel.parse.
  destruct (UrlParseModel.extract_scheme address) as [scheme rest].
  destruct (UrlParseModel.extract_slashes rest) as [slashes rest1].
  destruct (UrlParseModel.cut_at "#" rest1) as [fragment rest2].
  destruct (UrlParseModel.cut_at "?" rest2) as [search rest3].
  destruct (if slashes then UrlParseModel.cut_at "/" rest3 else (rest3, "")) as [path rest4].
  simpl. apply toLowerCase_idempotent.
Qed.

Section HostCase.

Context `{UrlParse}.

Lemma mixed_case_never_included (address : string) (hs : list string) :
  lowercases_host ->
  (forall h, h ∈ hs -> JsString.toLowerCase h <> h) ->
  includes (host (parseURL address)) hs = false.
Proof.
  intros Hlower Hmixed. unfold includes.
  induction hs as [|h hs IH]; simpl; [reflexivity |].
  rewrite IH by (intros h' Hh'; apply Hmixed; by right).
  destruct (String.eqb_spec (host (parseURL address)) h) as [Heq | Hne]; [| reflexivity].
  exfalso. apply (Hmixed h); [by left |]. rewrite <- Heq. apply Hlower.
Qed.

(** X19. Hosts are compared as they are written, and the parser gives the
    host of a link in lower case: an engine whose listed hosts all hold an
    upper-case letter rewrites nothing, whatever the links are. *)
Theorem host_with_capital_letter_never_matches (this : Affiliate) (nodeSet : option Node)
    (w : World) :
  lowercases_host ->
  (forall h, h ∈ hosts this -> JsString.toLowerCase h <> h) ->
  exists w',
    traverse this nodeSet w = (Normal tt, w')
    /\ attributes w' = attributes w /\ docile w' = docile w.
Proof.
  intros Hlower Hmixed.
  apply traverse_all_stable. intros node w' _.
  apply visit_filtered_out. intros value _.
  by apply mixed_case_never_included.
Qed.

End HostCase.

(** A tag for [Shop.Example] and a link to that very spelling. *)
Lemma host_with_capital_letter_never_matches_witness :
  let tag := mkTag ["Shop.Example"] [("ref", "A")] [] None in
  let this := mkAffiliate false (mkConfig [tag] false) ["Shop.Example"] false in
  let w := Scenario.one_link "http://Shop.Example/x" in
  exists w',
    traverse this None w = (Normal tt, w')
    /\ attributes w' !! 1 = Some "http://Shop.Example/x" /\ docile w' = ∅.
Proof.
  intros tag this w.
  destruct (host_with_capital_letter_never_matches this None w reference_lowercases_host)
    as (w' & Htraverse & Hattr & Hrecord).
  - intros h ->%list_elem_of_singleton. discriminate.
  - exists w'. split; [exact Htraverse |]. by rewrite Hattr, Hrecord.
Defined.

(** ** Links are rewritten one by one *)

Section Locality.

Context `{UrlParse}.

Lemma same_link_sym node w w' : same_link node w w' -> same_link node w' w.
Proof. intros [Ha Hd]. by split. Qed.

(** The pipeline on a link reads and writes that link's attribute and
    record only: in two worlds that agree on them it returns the same
    URL and leaves worlds that agree on them. *)
Lemma modifyURL_local this url node tag w1 w2 :
  same_link node w1 w2 ->
  fst (modifyURL this url node tag w1) = fst (modifyURL this url node tag w2)
  /\ same_link node (snd (modifyURL this url node tag w1)) (snd (modifyURL this url node tag w2)).
Proof.
  intros [Ha Hd].
  destruct (already_modified (docile w1 !! node) url) eqn:Hguard.
  - rewrite !modifyURL_skip by congruence. by split.
  - destruct (modifyURL_run this url node tag w1 Hguard) as (w1' & -> & Ha1 & Hd1).
    destruct (modifyURL_run this url node tag w2) as (w2' & -> & Ha2 & Hd2); [congruence |].
    split; [reflexivity |]. split; simpl.
    + by rewrite Ha1, Ha2, !lookup_insert_eq.
    + by rewrite Hd1, Hd2, !lookup_insert_eq.
Qed.

Lemma for_tags_local this node ts url w1 w2 :
  same_link node w1 w2 ->
  same_link node (snd (for_tags this url node ts w1)) (snd (for_tags this url node ts w2)).
Proof.
  revert url w1 w2. induction ts as [|tag rest IH]; intros url w1 w2 Hsame; simpl.
  - exact Hsame.
  - destruct (includes (host url) (tag_hosts tag)); [| by apply IH].
    unfold bind.
    destruct (modifyURL_local this url node tag w1 w2 Hsame) as [Hurl Hsame'].
    destruct (completes_modifyURL any_world node this url tag w1) as (u1 & w1' & H1 & _).
    destruct (completes_modifyURL any_world node this url tag w2) as (u2 & w2' & H2 & _).
    rewrite H1, H2 in *. simpl in Hurl, Hsame'. injection Hurl as <-.
    by apply IH.
Qed.

Lemma visit_local this node w1 w2 :
  same_link node w1 w2 ->
  same_link node (snd (visit this node w1)) (snd (visit this node w2)).
Proof.
  intros Hsame. pose proof Hsame as [Ha _].
  unfold visit, bind, getAttribute_href. rewrite Ha.
  destruct (attributes w1 !! node) as [value|]; [| exact Hsame].
  destruct (negb (JsString.truthy value)); [exact Hsame |].
  destruct (negb (includes _ _)); [exact Hsame |].
  pose proof (for_tags_local this node (tags (config this)) (parseURL value) w1 w2 Hsame)
    as Hlocal.
  destruct (completes_for_tags any_world node this (tags (config this)) (parseURL value) w1)
    as (u1 & w1' & H1 & _).
  destruct (completes_for_tags any_world node this (tags (config this)) (parseURL value) w2)
    as (u2 & w2' & H2 & _).
  rewrite H1, H2 in *. exact Hlocal.
Qed.

Lemma for_nodes_local this node nodes w0 w :
  NoDup nodes -> node ∈ nodes -> same_link node w0 w ->
  same_link node (snd (visit this node w0)) (snd (for_nodes this nodes w)).
Proof.
  intros Hnodup. revert w.
  induction Hnodup as [|m rest Hfresh Hnodup IH]; intros w Hin Hsame.
  - by apply elem_of_nil in Hin.
  - simpl. unfold bind.
    destruct (completes_visit any_world m this w) as ([] & w1 & Hvisit & _).
    rewrite Hvisit.
    destruct (decide (m = node)) as [-> | Hne].
    + destruct (for_nodes_outside this node rest w1 Hfresh) as (w2 & -> & Hrest).
      simpl. transitivity w1; [| exact Hrest].
      pose proof (visit_local this node w0 w Hsame) as Hlocal.
      by rewrite Hvisit in Hlocal.
    + apply elem_of_cons in Hin as [-> | Hin]; [done |].
      apply IH; [exact Hin |].
      transitivity w; [exact Hsame |].
      pose proof (same_link_admits node m Hne) as Hadmits.
      destruct (completes_visit (same_link node) m this w) as ([] & w1' & Hvisit' & Hstep).
      rewrite Hvisit in Hvisit'. by injection Hvisit' as <-.
Qed.

(** X20. Links are rewritten independently of one another: for a link
    among those scanned from a node, each scanned once, a traversal from
    that node leaves the link with the [href] and the provenance record
    that a traversal of the link alone would leave it with. *)
Theorem traversal_treats_each_link_alone (this : Affiliate) (root : Node) (node : nat)
    (nodeName : string) (childNodes : list Node) (w : World) :
  NoDup (scanned root) ->
  node ∈ scanned root ->
  is_anchor nodeName = true ->
  let alone := snd (traverse this (Some (Element node nodeName childNodes)) w) in
  let together := snd (traverse this (Some root) w) in
  attributes together !! node = attributes alone !! node
  /\ docile together !! node = docile alone !! node.
Proof.
  intros Hnodup Hin Hanchor alone together.
  pose proof (same_link_admits node (S node) (Nat.neq_succ_diag_l node)) as Hadmits.
  destruct (completes_this_log (same_link node) (S node) this false
              [LString "Traversing DOM..."] w) as ([] & w1 & Hlog & Hsame1).
  assert (same_link node (snd (visit this node w)) alone) as Halone.
  { unfold alone, traverse, bind, ret. rewrite Hlog, Hanchor. simpl. unfold bind, ret.
    destruct (completes_visit any_world node this w1) as ([] & w2 & Hvisit & _).
    rewrite Hvisit. simpl.
    pose proof (visit_local this node w w1 Hsame1) as Hlocal.
    by rewrite Hvisit in Hlocal. }
  assert (same_link node (snd (visit this node w)) together) as Htogether.
  { unfold together, traverse, bind, ret.
    destruct root as [id name children | id]; [| by apply elem_of_nil in Hin].
    rewrite Hlog.
    exact (for_nodes_local this node (scanned (Element id name children)) w w1
             Hnodup Hin Hsame1). }
  destruct Halone as [Ha1 Hd1], Htogether as [Ha2 Hd2]. split; congruence.
Qed.

End Locality.

(** The second of two links of a page, and the page as a whole. *)
Lemma traversal_treats_each_link_alone_witness :
  let tag := mkTag ["shop.example"] [("ref", "A")] [] None in
  let this := mkAffiliate false (mkConfig [tag] false) ["shop.example"] false in
  let body := Element 0 "BODY" [Element 1 "A" []; Element 2 "A" []] in
  let w := Scenario.page body [(1, "http://shop.example/x"); (2, "http://shop.example/y")] in
  attributes (snd (traverse this (Some body) w)) !! 2
  = attributes (snd (traverse this (Some (Element 2 "A" [])) w)) !! 2
  /\ attributes (snd (traverse this (Some body) w)) !! 2 = Some "http://shop.example/y?ref=A".
Proof.
  intros tag this body w.
  destruct (traversal_treats_each_link_alone this body 2 "A" [] w) as [Hattr _].
  - vm_compute. apply NoDup_cons. split.
    + intros Hin%list_elem_of_singleton. discriminate.
    + apply NoDup_cons. split; [by intros ?%elem_of_nil | apply NoDup_nil_2].
  - vm_compute. right. by left.
  - reflexivity.
  - split; [exact Hattr | reflexivity].
Defined.

(** ** A custom transform that returns nothing *)


